(** * astrbot_plugin_apis: registry, matching, fetch pipeline, prober

    A shallow embedding of [core/api_manager.py], [core/request.py] and
    the fallback orchestrator of [main.py].

    Python [str] values are modelled as [string] holding the UTF-8
    encoding of the text.  UTF-8 is self-synchronising, so substring
    containment, prefix tests and equality on the encodings coincide with
    the same tests on code points. *)

From stdpp Require Import base option list strings gmap pretty sorting.
From Stdlib Require Import ZArith Lia Ascii.
From Equations Require Import Equations.
From Equations.Prop Require Import Logic.

Set Warnings "-register-all".

Local Open Scope string_scope.
Local Open Scope Z_scope.

(** ** Python values *)

Abbreviation bytes := (list Byte.byte).

(** What [resp.json()], [resp.text()] and [resp.read()] can produce, and
    what the JSON catalogue stores as parameter defaults. *)
Inductive PyVal : Type :=
| PNone
| PBool (b : bool)
| PInt (z : Z)
| PFloat (literal : string)
| PStr (s : string)
| PBytes (b : bytes)
| PList (xs : list PyVal)
| PDict (kv : list (string * PyVal)).

Abbreviation Params := (list (string * PyVal)).

(** Exceptions that the modelled code raises or lets through. *)
Inductive Exn : Type :=
| ClientResponseError (status : Z)   (* resp.raise_for_status() *)
| ClientError (msg : string)         (* connection level failure *)
| TimeoutError
| DecodeError (msg : string)         (* body could not be read or parsed *)
| RuntimeError (msg : string)
| KeyError (key : string)
| IndexError
| IOError (msg : string)
| ValueError (msg : string)         (* urlparse on a malformed URL *)
| UnicodeDecodeError.                (* a file that is not UTF-8 *)

Inductive result (A : Type) : Type :=
| Return (a : A)
| Raise (e : Exn).
Arguments Return {A} a.
Arguments Raise {A} e.

Definition is_raise {A} (r : result A) : bool :=
  match r with Raise _ => true | Return _ => false end.

(** ** String helpers (Python built-ins used by the code) *)

(** [needle in hay] on [str]. *)
Fixpoint py_in_str (needle hay : string) : bool :=
  String.prefix needle hay ||
  match hay with
  | EmptyString => false
  | String _ rest => py_in_str needle rest
  end.

Definition startswith (s p : string) : bool := String.prefix p s.

(** [str.lower] on the ASCII letters; other characters are kept. *)
Definition lower_ascii (c : ascii) : ascii :=
  let n := nat_of_ascii c in
  if (Nat.leb 65 n && Nat.leb n 90)%bool then ascii_of_nat (n + 32) else c.

Fixpoint lower (s : string) : string :=
  match s with
  | EmptyString => EmptyString
  | String c rest => String (lower_ascii c) (lower rest)
  end.

(** [str.isspace], read on the UTF-8 encoding.  Python's white space is
    U+0009-000D, U+001C-0020 (one byte each), U+0085 and U+00A0 (two
    bytes, C2 85 and C2 A0), U+1680, U+2000-200A, U+2028, U+2029, U+202F,
    U+205F and U+3000 (three bytes). *)
Definition is_space (c : ascii) : bool :=
  let n := nat_of_ascii c in
  (Nat.leb 9 n && Nat.leb n 13 || Nat.leb 28 n && Nat.leb n 32)%bool.

Definition is_space2 (c1 c2 : ascii) : bool :=
  let a := nat_of_ascii c1 in
  let b := nat_of_ascii c2 in
  (Nat.eqb a 194 && (Nat.eqb b 133 || Nat.eqb b 160))%bool.

Definition is_space3 (c1 c2 c3 : ascii) : bool :=
  let a := nat_of_ascii c1 in
  let b := nat_of_ascii c2 in
  let c := nat_of_ascii c3 in
  (Nat.eqb a 225 && Nat.eqb b 154 && Nat.eqb c 128
   || Nat.eqb a 226 && Nat.eqb b 128
      && (Nat.leb 128 c && Nat.leb c 138
          || Nat.eqb c 168 || Nat.eqb c 169 || Nat.eqb c 175)
   || Nat.eqb a 226 && Nat.eqb b 129 && Nat.eqb c 159
   || Nat.eqb a 227 && Nat.eqb b 128 && Nat.eqb c 128)%bool.

(** Dropping leading characters recognised by [p1] (one byte), [p2] (two
    bytes) or [p3] (three bytes). *)
Fixpoint lstrip_by (p1 : ascii → bool) (p2 : ascii → ascii → bool)
    (p3 : ascii → ascii → ascii → bool) (s : string) : string :=
  match s with
  | EmptyString => EmptyString
  | String c1 r1 =>
      if p1 c1 then lstrip_by p1 p2 p3 r1
      else
        match r1 with
        | EmptyString => s
        | String c2 r2 =>
            if p2 c1 c2 then lstrip_by p1 p2 p3 r2
            else
              match r2 with
              | EmptyString => s
              | String c3 r3 =>
                  if p3 c1 c2 c3 then lstrip_by p1 p2 p3 r3 else s
              end
        end
  end.

Definition lstrip (s : string) : string :=
  lstrip_by is_space is_space2 is_space3 s.

(** The same from the right: the bytes of a character are met last
    first.  A lead byte is never a continuation byte, so a match at the
    end of valid UTF-8 is a whole character. *)
Definition rstrip (s : string) : string :=
  String.rev
    (lstrip_by is_space (λ c2 c1, is_space2 c1 c2)
               (λ c3 c2 c1, is_space3 c1 c2 c3) (String.rev s)).

Definition strip (s : string) : string := rstrip (lstrip s).

(** Truthiness of a [str]. *)
Definition truthy_str (s : string) : bool :=
  match s with EmptyString => false | _ => true end.

(** ** The network, as [aiohttp] presents it to [request] *)

(** A response object: its status line, its Content-Type header and the
    outcome of each of the three ways of consuming the body. *)
Record Response : Type := mkResponse {
  resp_status : Z;
  resp_content_type : option string;
  resp_json : result PyVal;
  resp_text : result string;
  resp_read : result bytes;
}.

(** [session.get(u, params=params, timeout=30)]: the state [World] stands
    for everything outside the process, so two calls with the same
    arguments may answer differently. *)
Class Net : Type := {
  World : Type;
  http_get : string → option Params → World → result Response * World;
}.

(** Helpers of [core/utils.py] and the HTML parser, taken as parameters. *)
Class Utils : Type := {
  extract_url : string → option string;
  get_nested_value : list (string * PyVal) → string → PyVal;
  dict_to_string : list (string * PyVal) → string;
  html_get_text : string → string;
}.

Section Request.
Context `{net : Net} `{utils : Utils}.

(** [resp.raise_for_status()] *)
Definition raise_for_status (resp : Response) : result unit :=
  if 400 <=? resp_status resp
  then Raise (ClientResponseError (resp_status resp))
  else Return tt.

(** Lines 30-35: decoding by content type. *)
Definition decode (resp : Response) : result PyVal :=
  let ct := lower (default "" (resp_content_type resp)) in
  if py_in_str "application/json" ct then resp_json resp
  else if py_in_str "text/" ct then
    match resp_text resp with
    | Return s => Return (PStr (strip s))
    | Raise e => Raise e
    end
  else
    match resp_read resp with
    | Return b => Return (PBytes b)
    | Raise e => Raise e
    end.

(** The body of the [try] for one URL, given what [session.get] did. *)
Definition attempt (test_mode : bool) (got : result Response) : result PyVal :=
  match got with
  | Raise e => Raise e
  | Return resp =>
      match raise_for_status resp with
      | Raise e => Raise e
      | Return _ => if test_mode then Return PNone else decode resp
      end
  end.

(** The [for u in urls] loop of [request], with [last_exc] threaded. *)
Fixpoint request_from (last_exc : option Exn) (urls : list string)
    (params : option Params) (test_mode : bool) (w : World)
    : result PyVal * World :=
  match urls with
  | [] =>
      match last_exc with
      | Some e => (Raise e, w)
      | None => (Return PNone, w)
      end
  | u :: rest =>
      let '(got, w1) := http_get u params w in
      match attempt test_mode got with
      | Return v => (Return v, w1)
      | Raise e => request_from (Some e) rest params test_mode w1
      end
  end.

Definition request (urls : list string) (params : option Params)
    (test_mode : bool) (w : World) : result PyVal * World :=
  request_from None urls params test_mode w.

(** Lines 53-60 of [get_data]: the indirection step. *)
Definition redownload (urls : list string) (api_type : string)
    (data : PyVal) (w : World) : result PyVal * World :=
  match data with
  | PStr s =>
      if bool_decide (api_type ≠ "text") then
        match extract_url s with
        | Some url =>
            if truthy_str url then
              let '(r, w1) := request urls None false w in
              match r with
              | Raise e => (Raise e, w1)
              | Return (PBytes b) => (Return (PBytes b), w1)
              | Return _ => (Raise (RuntimeError ("下载数据失败: " ++ url)), w1)
              end
            else (Return data, w)
        | None => (Return data, w)
        end
      else (Return data, w)
  | _ => (Return data, w)
  end.

(** Lines 62-68: resolving [target] in a parsed JSON object. *)
Definition resolve_target (target : string) (data : PyVal) : PyVal :=
  match data with
  | PDict kv =>
      if truthy_str target then
        match get_nested_value kv target with
        | PDict nested => PStr (dict_to_string nested)
        | nested_value => nested_value
        end
      else data
  | _ => data
  end.

(** Lines 70-74: HTML documents are reduced to their text. *)
Definition strip_html (data : PyVal) : PyVal :=
  match data with
  | PStr s =>
      if startswith (strip s) "<!DOCTYPE html>" then PStr (html_get_text s)
      else data
  | _ => data
  end.

(** Lines 76-79. *)
Definition as_text (data : PyVal) : option string :=
  match data with PStr s => Some s | _ => None end.
Definition as_bytes (data : PyVal) : option bytes :=
  match data with PBytes b => Some b | _ => None end.

(** The value [data] holds when line 76 is reached. *)
Definition final_data (urls : list string) (params : option Params)
    (api_type target : string) (w : World) : result PyVal * World :=
  let '(r, w1) := request urls params false w in
  match r with
  | Raise e => (Raise e, w1)
  | Return data =>
      let '(r2, w2) := redownload urls api_type data w1 in
      match r2 with
      | Raise e => (Raise e, w2)
      | Return data2 => (Return (strip_html (resolve_target target data2)), w2)
      end
  end.

Definition get_data (urls : list string) (params : option Params)
    (api_type target : string) (w : World)
    : result (option string * option bytes) * World :=
  let '(r, w1) := final_data urls params api_type target w in
  match r with
  | Raise e => (Raise e, w1)
  | Return data => (Return (as_text data, as_bytes data), w1)
  end.

End Request.

(** ** The object store

    [normalize_api_data] passes the registry's own [url] list and
    [params] dict on before copying them, so these two kinds of mutable
    container live in a store and are referred to by address.  Addresses
    are indices into a store that only grows. *)

Abbreviation loc := nat.

Inductive HObj : Type :=
| HList (xs : list string)
| HDict (kv : Params).

Abbreviation Heap := (list HObj).

Definition alloc (h : Heap) (o : HObj) : loc * Heap := (length h, (h ++ [o])%list).

Definition deref_list (h : Heap) (l : loc) : list string :=
  match h !! l with Some (HList xs) => xs | _ => [] end.

Definition deref_dict (h : Heap) (l : loc) : Params :=
  match h !! l with Some (HDict kv) => kv | _ => [] end.

(** ** Insertion-ordered dictionaries *)

Definition dict_get {V} (k : string) (d : list (string * V)) : option V :=
  snd <$> List.find (λ kv, String.eqb (fst kv) k) d.

(** [d[k] = v]: an existing key keeps its position, a new one goes last. *)
Fixpoint dict_set {V} (k : string) (v : V) (d : list (string * V))
    : list (string * V) :=
  match d with
  | [] => [(k, v)]
  | (k', v') :: rest =>
      if String.eqb k' k then (k, v) :: rest else (k', v') :: dict_set k v rest
  end.

Definition dict_keys {V} (d : list (string * V)) : list string := map fst d.

(** ** Endpoint definitions as stored (core/api_manager.py) *)

Inductive StrOrList (L : Type) : Type :=
| OneStr (s : string)
| Many (l : L).
Arguments OneStr {L} s.
Arguments Many {L} l.

(** One entry of the catalogue.  A field is [None] when its key is absent.
    [L] and [D] are the representations of the [url] list and of the
    [params] dict: addresses in memory, plain values in the JSON file. *)
Record Api (L D : Type) : Type := mkApi {
  api_keyword : option (StrOrList (list string));
  api_url : option (StrOrList L);
  api_type : option string;
  api_params : option D;
  api_target : option string;
  api_fuzzy : option bool;
  api_priority : option Z;
}.
Arguments mkApi {L D}.
Arguments api_keyword {L D}.
Arguments api_url {L D}.
Arguments api_type {L D}.
Arguments api_params {L D}.
Arguments api_target {L D}.
Arguments api_fuzzy {L D}.
Arguments api_priority {L D}.

Definition RawApi := Api loc loc.
Definition JsonApi := Api (list string) Params.

(** [{}], what [self.apis.get(name, {})] falls back to. *)
Definition empty_api {L D} : Api L D := mkApi None None None None None None None.

(** The in-memory manager: [self.apis], the store, and the content of
    [apis_file] ([None] while the file does not exist). *)
Record APIManager : Type := mkManager {
  apis : list (string * RawApi);
  heap : Heap;
  apis_file : option (list (string * JsonApi));
}.

Definition ALLOWED_TYPES : list string := ["text"; "image"; "video"; "audio"].
Definition default_api_type : string := "image".

(** What [json.dump] writes for one entry. *)
Definition dump_api (h : Heap) (raw : RawApi) : JsonApi :=
  mkApi (api_keyword raw)
        (match api_url raw with
         | Some (OneStr s) => Some (OneStr s)
         | Some (Many l) => Some (Many (deref_list h l))
         | None => None
         end)
        (api_type raw)
        (deref_dict h <$> api_params raw)
        (api_target raw) (api_fuzzy raw) (api_priority raw).

Definition json_dump (h : Heap) (d : list (string * RawApi))
    : list (string * JsonApi) :=
  map (λ kv, (fst kv, dump_api h (snd kv))) d.

(** [_save_data]: the file receives the dump of the whole registry (the
    write itself is taken to succeed). *)
Definition _save_data (m : APIManager) : APIManager :=
  mkManager (apis m) (heap m) (Some (json_dump (heap m) (apis m))).

(** [add_api]: line 68 computes [name]; indexing an empty list raises. *)
Definition primary_keyword (api_info : RawApi) : result string :=
  match api_keyword api_info with
  | Some (Many []) => Raise IndexError
  | Some (Many (k :: _)) => Return k
  | Some (OneStr s) => Return s
  | None => Return ""
  end.

Definition add_api (api_info : RawApi) (m : APIManager)
    : result unit * APIManager :=
  match primary_keyword api_info with
  | Raise e => (Raise e, m)
  | Return name =>
      if negb (truthy_str name) then (Return tt, m)
      else
        (Return tt,
         _save_data (mkManager (dict_set name api_info (apis m)) (heap m)
                               (apis_file m)))
  end.

(** The normalised view handed to callers (keys [name], [urls], [type],
    [params], [target], [fuzzy], [priority]); [ad_urls] and [ad_params]
    are the addresses of the containers it holds. *)
Record ApiData : Type := mkApiData {
  ad_name : string;
  ad_urls : loc;
  ad_type : string;
  ad_params : loc;
  ad_target : string;
  ad_fuzzy : bool;
  ad_priority : Z;
}.

(** [copy.deepcopy] of a list of strings or of a dict of plain values: a
    new container with equal content. *)
Definition deepcopy (h : Heap) (l : loc) : loc * Heap :=
  match h !! l with
  | Some o => alloc h o
  | None => (l, h)
  end.

Definition normalize_api_data (nm : string) (m : APIManager)
    : ApiData * APIManager :=
  let raw_api := default empty_api (dict_get nm (apis m)) in
  let h0 := heap m in
  (* url = raw_api.get("url", ""); urls = [url] if isinstance(url, str) else url *)
  let '(urls0, h1) :=
    match default (OneStr "") (api_url raw_api) with
    | OneStr s => alloc h0 (HList [s])
    | Many l => (l, h0)
    end in
  let api_type0 := default "" (api_type raw_api) in
  let api_type1 :=
    if bool_decide (api_type0 ∈ ALLOWED_TYPES) then api_type0
    else default_api_type in
  (* raw_api.get("params", {}) or {} *)
  let '(params0, h2) :=
    match api_params raw_api with
    | Some l =>
        match deref_dict h1 l with
        | [] => alloc h1 (HDict [])
        | _ => (l, h1)
        end
    | None => alloc h1 (HDict [])
    end in
  (* copy.deepcopy(normalized) *)
  let '(urls1, h3) := deepcopy h2 urls0 in
  let '(params1, h4) := deepcopy h3 params0 in
  (mkApiData nm urls1 api_type1 params1
     (default "" (api_target raw_api))
     (default false (api_fuzzy raw_api))
     (default 0 (api_priority raw_api)),
   mkManager (apis m) h4 (apis_file m)).

(** ** Matching *)

Definition keywords_of {L D} (raw_api : Api L D) : list string :=
  match default (Many []) (api_keyword raw_api) with
  | OneStr s => [s]
  | Many l => l
  end.

(** Lines 140-146. *)
Definition matched {L D} (msg : string) (raw_api : Api L D) : bool :=
  let keywords := keywords_of raw_api in
  if bool_decide (msg ∈ keywords) then true
  else if default false (api_fuzzy raw_api)
          && existsb (λ k, py_in_str k msg) keywords
  then true
  else false.

Definition Match : Type := Z * string * RawApi.
Definition match_priority (x : Match) : Z := fst (fst x).
Definition match_key (x : Match) : string := snd (fst x).

(** The loop of lines 135-150. *)
Fixpoint collect_matches (msg : string) (d : list (string * RawApi))
    : list Match :=
  match d with
  | [] => []
  | (key, raw_api) :: rest =>
      if matched msg raw_api
      then (default 0 (api_priority raw_api), key, raw_api)
             :: collect_matches msg rest
      else collect_matches msg rest
  end.

(** [matches.sort(key=lambda x: x[0], reverse=True)]: stable, descending. *)
Fixpoint insert_desc (x : Match) (sorted : list Match) : list Match :=
  match sorted with
  | [] => [x]
  | y :: rest =>
      if match_priority y <=? match_priority x then x :: y :: rest
      else y :: insert_desc x rest
  end.

Definition sort_desc (ms : list Match) : list Match := foldr insert_desc [] ms.

(** [random.choice(seq)] for a non-empty [seq]; [draw] is the random
    number the generator produces. *)
Definition random_choice {A} (draw : nat) (seq : list A) : option A :=
  seq !! (draw `mod` length seq)%nat.

Definition same_priority_matches (sorted : list Match) : list Match :=
  match sorted with
  | [] => []
  | top :: _ =>
      filter (λ x, match_priority x = match_priority top) sorted
  end.

Definition match_api_by_name (draw : nat) (msg : string) (m : APIManager)
    : option ApiData * APIManager :=
  let matches := collect_matches msg (apis m) in
  match matches with
  | [] => (None, m)
  | _ =>
      let sorted := sort_desc matches in
      match random_choice draw (same_priority_matches sorted) with
      | Some selected =>
          let '(d, m') := normalize_api_data (match_key selected) m in
          (Some d, m')
      | None => (None, m)   (* not reached: the filter keeps the head *)
      end
  end.

(** ** The availability prober (core/request.py, [batch_test_apis]) *)

(** [urllib.parse.urlparse], reduced to the two components that
    [extract_base_url] reads: (scheme, netloc).  It raises [ValueError]
    on some malformed URLs (an unclosed bracket in the host, say). *)
Class UrlLib : Type := {
  urlparse : string → result (string * string);
}.

Record Entry : Type := mkEntry {
  entry_api_name : string;
  entry_url : string;
  entry_params : Params;
}.

Abbreviation Queues := (list (string * list Entry)).
Abbreviation Flags := (list (string * bool)).

(** One probe together with what [asyncio.gather] reported for it. *)
Abbreviation Probe := (Entry * result PyVal)%type.

Definition extract_base_url `{UrlLib} (full_url : string) : result string :=
  match urlparse full_url with
  | Raise e => Raise e
  | Return (scheme, netloc) =>
      Return (if truthy_str scheme && truthy_str netloc
              then scheme ++ "://" ++ netloc
              else full_url)
  end.

(** [site_to_entries[site].append(e)] on a [defaultdict(list)]. *)
Definition dd_append (site : string) (e : Entry) (q : Queues) : Queues :=
  dict_set site (default [] (dict_get site q) ++ [e])%list q.

(** The inner [for u in urls] of step 1; an exception of
    [extract_base_url] ends the whole run. *)
Fixpoint add_entries `{UrlLib} (api_name : string) (us : list string)
    (ps : Params) (q : Queues) : result Queues :=
  match us with
  | [] => Return q
  | u :: rest =>
      match extract_base_url u with
      | Raise e => Raise e
      | Return site =>
          add_entries api_name rest ps
                      (dd_append site (mkEntry api_name u ps) q)
      end
  end.

(** Step 1; [api_data["url"]] raises when the key is absent, and
    [extract_base_url] when a URL cannot be parsed. *)
Fixpoint group_by_site `{UrlLib} (h : Heap) (d : list (string * RawApi))
    (q : Queues) : result Queues :=
  match d with
  | [] => Return q
  | (api_name, api_data) :: rest =>
      match api_url api_data with
      | None => Raise (KeyError "url")
      | Some url =>
          let us := match url with
                    | OneStr s => [s]
                    | Many l => deref_list h l
                    end in
          let ps := default [] (deref_dict h <$> api_params api_data) in
          match add_entries api_name us ps q with
          | Raise e => Raise e
          | Return q' => group_by_site h rest q'
          end
      end
  end.

(** [dict.fromkeys(keys, value)] *)
Definition dict_fromkeys {V} (keys : list string) (v : V) : list (string * V) :=
  foldl (λ d k, dict_set k v d) [] keys.

(** [any(site_to_entries.values())] *)
Definition any_pending (q : Queues) : bool :=
  existsb (λ kv, match snd kv with [] => false | _ => true end) q.

(** Lines 107-111: the batch of a round, and the queues it leaves. *)
Definition round_batch (q : Queues) : list Entry :=
  omap (λ kv, head (snd kv)) q.

Definition round_rest (q : Queues) : Queues :=
  map (λ kv, (fst kv, tail (snd kv))) q.

Definition pending (q : Queues) : nat :=
  foldr (λ kv n, (length (snd kv) + n)%nat) 0%nat q.

(** Lines 121-125. *)
Definition mark (flags : Flags) (p : Probe) : Flags :=
  match snd p with
  | Raise _ => flags
  | Return _ => dict_set (entry_api_name (fst p)) true flags
  end.

Section Prober.
Context `{net : Net} `{urllib : UrlLib}.

(** Lines 117-118.  [asyncio.gather(..., return_exceptions=True)] yields
    one outcome per task, in task order.  The tasks run interleaved; the
    model lets the world answer them in task order, and since [World] and
    [http_get] are arbitrary every vector of outcomes is covered. *)
Fixpoint gather (batch : list Entry) (w : World) : list Probe * World :=
  match batch with
  | [] => ([], w)
  | e :: rest =>
      let '(r, w1) := request [entry_url e] (Some (entry_params e)) true w in
      let '(ps, w2) := gather rest w1 in
      ((e, r) :: ps, w2)
  end.

(** Step 3, the [while] loop.  Besides the flags it returns the rounds it
    ran, each with its probes (a ghost value: the code keeps no such
    record). *)
Equations? probe_rounds (q : Queues) (flags : Flags) (w : World)
    : Flags * list (list Probe) * World by wf (pending q) lt :=
  probe_rounds q flags w with inspect (any_pending q) => {
    | exist _ true Hany =>
        match round_batch q with
        | [] => (flags, [], w)                 (* if not batch: break *)
        | batch =>
            let gr := gather batch w in
            let flags' := foldl mark flags (fst gr) in
            let rec := probe_rounds (round_rest q) flags' (snd gr) in
            (fst (fst rec), fst gr :: snd (fst rec), snd rec)
        end;
    | exist _ false Hany => (flags, [], w) }.
Proof.
  clear -Hany. induction q as [|[site es] q IH]; simpl in *; [discriminate|].
  destruct es as [|e es]; simpl in *.
  - exact (IH Hany).
  - assert (pending (round_rest q) <= pending q)%nat as Hle; [|lia].
    clear. induction q as [|[s es] q IH]; simpl; [lia|].
    destruct es; simpl in *; lia.
Qed.

Definition batch_test_apis (m : APIManager) (w : World)
    : result (list string * list string) * World :=
  match group_by_site (heap m) (apis m) [] with
  | Raise e => (Raise e, w)
  | Return site_to_entries =>
      let api_succeeded := dict_fromkeys (dict_keys (apis m)) false in
      let '(flags, _, w') := probe_rounds site_to_entries api_succeeded w in
      (Return (map fst (filter (λ kv, snd kv = true) flags),
               map fst (filter (λ kv, snd kv = false) flags)), w')
  end.

End Prober.

(** ** The fallback orchestrator (main.py, [call_api]) *)

Definition Path := string.

(** [LocalDataManager] of [core/local.py], taken as a parameter. *)
Class LocalCache : Type := {
  LocalState : Type;
  save_data : string → string → option string → option bytes → LocalState
              → result (option string * option Path) * LocalState;
  local_get_data : string → string → LocalState
                   → result (option string * option Path) * LocalState;
}.

Definition truthy_text (t : option string) : bool :=
  match t with Some s => truthy_str s | None => false end.

Definition truthy_bytes (b : option bytes) : bool :=
  match b with Some (_ :: _) => true | _ => false end.

(** [params or api_data["params"]] *)
Definition params_or (params : option Params) (dflt : Params) : Params :=
  match params with
  | Some (kv :: rest) => kv :: rest
  | _ => dflt
  end.

Section Plugin.
Context `{net : Net} `{utils : Utils} `{cache : LocalCache}.

(** Lines 263-271. *)
Definition local_fallback (api_data : ApiData) (ls : LocalState)
    : (option string * option Path * string) * LocalState :=
  let '(r, ls1) := local_get_data (ad_type api_data) (ad_name api_data) ls in
  match r with
  | Return (local_text, local_path) => ((local_text, local_path, "local"), ls1)
  | Raise _ => ((None, None, "error"), ls1)
  end.

Definition call_api (h : Heap) (api_data : ApiData) (params : option Params)
    (w : World) (ls : LocalState)
    : (option string * option Path * string) * World * LocalState :=
  let '(r, w1) :=
    get_data (deref_list h (ad_urls api_data))
             (Some (params_or params (deref_dict h (ad_params api_data))))
             (ad_type api_data) (ad_target api_data) w in
  match r with
  | Return (api_text, api_byte) =>
      if truthy_text api_text || truthy_bytes api_byte then
        let '(s, ls1) :=
          save_data (ad_type api_data) (ad_name api_data) api_text api_byte ls in
        match s with
        | Return (saved_text, saved_path) =>
            ((saved_text, saved_path, "api"), w1, ls1)
        | Raise _ =>
            let '(out, ls2) := local_fallback api_data ls1 in (out, w1, ls2)
        end
      else
        let '(out, ls1) := local_fallback api_data ls in (out, w1, ls1)
  | Raise _ =>
      let '(out, ls1) := local_fallback api_data ls in (out, w1, ls1)
  end.

End Plugin.

(** ** The rest of the registry (core/api_manager.py) *)

(** [del d[k]] *)
Fixpoint dict_del {V} (k : string) (d : list (string * V)) : list (string * V) :=
  match d with
  | [] => []
  | (k', v') :: rest =>
      if String.eqb k' k then rest else (k', v') :: dict_del k rest
  end.

(** [remove_api]: an unknown name only produces a warning. *)
Definition remove_api (nm : string) (m : APIManager) : APIManager :=
  match dict_get nm (apis m) with
  | Some _ =>
      _save_data (mkManager (dict_del nm (apis m)) (heap m) (apis_file m))
  | None => m
  end.

Definition get_apis_names (m : APIManager) : list string := dict_keys (apis m).

(** The loop of [find_api_matches] (lines 175-187); its test is written
    as one disjunction. *)
Fixpoint find_matches_loop (msg : string) (d : list (string * RawApi))
    : list Match :=
  match d with
  | [] => []
  | (key, raw_api) :: rest =>
      let keywords := keywords_of raw_api in
      if bool_decide (msg ∈ keywords)
         || (default false (api_fuzzy raw_api)
             && existsb (λ k, py_in_str k msg) keywords)
      then (default 0 (api_priority raw_api), key, raw_api)
             :: find_matches_loop msg rest
      else find_matches_loop msg rest
  end.

Definition find_api_matches (msg : string) (m : APIManager) : list Match :=
  sort_desc (find_matches_loop msg (apis m)).

(** [list_api], lines 198-205: the names of each allowed type. *)
Definition classify (d : list (string * RawApi)) : list (string * list string) :=
  foldl (λ api_types kv,
           let api_type := default "unknown" (api_type (snd kv)) in
           match dict_get api_type api_types with
           | Some names => dict_set api_type (names ++ [fst kv])%list api_types
           | None => api_types
           end)
        (map (λ t, (t, [])) ALLOWED_TYPES) d.

(** [list_api], lines 207-216. *)
Definition list_api (m : APIManager) : string :=
  strip
    (foldl (λ result bucket,
              (match snd bucket with
               | [] => result
               | names =>
                   foldl (λ r key, r ++ key ++ "、")
                         (result ++ "【" ++ fst bucket ++ "】"
                                 ++ pretty (length names) ++ "个：" ++ "
")
                         names
               end) ++ "

")
           ("----共收录了" ++ pretty (length (apis m)) ++ "个API功能----" ++ "

")
           (classify (apis m))).

(** *** Loading the catalogue *)

(** What a JSON file on disk can be for [open] and [json.load]: not
    there, there but failing to open or to decode with an exception [e]
    other than [json.JSONDecodeError] (a file that is not UTF-8 gives
    [UnicodeDecodeError]), decodable but not JSON, or a JSON object of
    definitions. *)
Inductive FileState : Type :=
| Absent
| Unreadable (e : Exn)
| Corrupt
| Holds (d : list (string * JsonApi)).

(** [json.load] builds a new list and a new dict for each entry. *)
Definition load_api (j : JsonApi) (h : Heap) : RawApi * Heap :=
  let '(url, h1) :=
    match api_url j with
    | Some (Many us) => let '(l, h') := alloc h (HList us) in (Some (Many l), h')
    | Some (OneStr s) => (Some (OneStr s), h)
    | None => (None, h)
    end in
  let '(ps, h2) :=
    match api_params j with
    | Some kv => let '(l, h') := alloc h1 (HDict kv) in (Some l, h')
    | None => (None, h1)
    end in
  (mkApi (api_keyword j) url (api_type j) ps (api_target j) (api_fuzzy j)
         (api_priority j), h2).

(** For a repeated key the later value wins, at the first position. *)
Fixpoint json_load (d : list (string * JsonApi)) (acc : list (string * RawApi))
    (h : Heap) : list (string * RawApi) * Heap :=
  match d with
  | [] => (acc, h)
  | (k, j) :: rest =>
      let '(raw, h1) := load_api j h in
      json_load rest (dict_set k raw acc) h1
  end.

(** [_initialize_from_system]: [seed] is the default catalogue; the result
    is [self.apis], the store, and the state of [apis_file] afterwards.
    Only [json.JSONDecodeError] is caught; the write of [_save_data] is
    taken to succeed, as above. *)
Definition _initialize_from_system (store seed : FileState) (h : Heap)
    : result (list (string * RawApi) * Heap * FileState) :=
  match seed with
  | Holds d =>
      let '(a, h1) := json_load d [] h in
      Return (a, h1, Holds (json_dump h1 a))        (* self._save_data() *)
  | Corrupt => Return ([], h, store)
  | Unreadable e => Raise e
  | Absent => Return ([], h, store)
  end.

Definition load_data (store seed : FileState) (h : Heap)
    : result (list (string * RawApi) * Heap * FileState) :=
  match store with
  | Absent => _initialize_from_system store seed h
  | Holds d => let '(a, h1) := json_load d [] h in Return (a, h1, store)
  | Unreadable e => Raise e
  | Corrupt => _initialize_from_system store seed h
  end.

(** ** More of the plugin (main.py) *)

(** [match_api], lines 188-191: positional arguments override the
    defaults, key by key. *)
Definition update_params (args : list string) (params : Params) : Params :=
  foldl (λ acc ik,
           dict_set (snd ik)
                    (match args !! fst ik with
                     | Some a => PStr a
                     | None => default PNone (dict_get (snd ik) params)
                     end) acc)
        [] (zip (seq 0 (length params)) (dict_keys params)).

(** [_generate_api_list]: [api_names] as it stands at line 287. *)
Definition api_names (enable_api_type : list string) (m : APIManager)
    : list string :=
  flat_map (λ kv,
    if bool_decide (default "text" (api_type (snd kv)) ∈ enable_api_type)
    then match keywords_of (snd kv) with
         | [] => []
         | k :: _ => [k]
         end
    else []) (apis m).

Definition _generate_api_list (enable_api_type : list string) (m : APIManager)
    : string :=
  match api_names enable_api_type m with
  | [] => ""
  | names => String.concat "," (take 50 names)
  end.

Section PluginByName.
Context `{net : Net} `{utils : Utils} `{cache : LocalCache}.

(** [call_api_by_name] *)
Definition call_api_by_name (draw : nat) (nm : string) (params : option Params)
    (m : APIManager) (w : World) (ls : LocalState)
    : (option string * option Path * string) * APIManager * World * LocalState :=
  let '(api_data, m') := match_api_by_name draw nm m in
  match api_data with
  | None => ((None, None, "error"), m', w, ls)
  | Some d =>
      let '(out, w', ls') := call_api (heap m') d params w ls in
      (out, m', w', ls')
  end.

End PluginByName.

(** ** Concrete collaborators, used to run the definitions on examples *)

(** A network that answers the [n]-th request according to a script. *)
Definition scripted_net
    (script : nat → string → option Params → result Response) : Net :=
  {| World := nat; http_get := λ u ps n, (script n u ps, S n) |}.

Definition ok_json (v : PyVal) : Response :=
  mkResponse 200 (Some "application/json; charset=utf-8") (Return v)
             (Raise (DecodeError "not text")) (Raise (DecodeError "consumed")).

Definition ok_text (s : string) : Response :=
  mkResponse 200 (Some "text/plain") (Raise (DecodeError "not json"))
             (Return s) (Raise (DecodeError "consumed")).

Definition ok_binary (b : bytes) : Response :=
  mkResponse 200 (Some "image/png") (Raise (DecodeError "not json"))
             (Raise (DecodeError "not text")) (Return b).

Definition http_status (code : Z) : Response :=
  mkResponse code None (Raise (DecodeError "no body"))
             (Raise (DecodeError "no body")) (Raise (DecodeError "no body")).

(** Stand-ins for [core/utils.py]: a string is an indirection when it
    starts with "http"; paths are single keys. *)
Definition demo_utils : Utils :=
  {| extract_url := λ s, if startswith s "http" then Some s else None;
     get_nested_value := λ kv path, default PNone (dict_get path kv);
     dict_to_string := λ kv, String.concat ", " (dict_keys kv);
     html_get_text := λ s, s |}.

(** A URL parser that knows the two origins used in the examples and
    rejects an unclosed bracket in the host. *)
Definition demo_urllib : UrlLib :=
  {| urlparse := λ u,
       if startswith u "https://a/" then Return ("https", "a")
       else if startswith u "https://b/" then Return ("https", "b")
       else if startswith u "http://[" then Raise (ValueError "Invalid IPv6 URL")
       else Return ("", "") |}.

(** A cache holding at most one text per (type, name). *)
Definition demo_cache : LocalCache :=
  {| LocalState := list (string * string);
     save_data := λ ty nm t b ls,
       (Return (t, if truthy_bytes b then Some (ty ++ "/" ++ nm) else None),
        dict_set (ty ++ "/" ++ nm) (default "" t) ls);
     local_get_data := λ ty nm ls,
       match dict_get (ty ++ "/" ++ nm) ls with
       | Some t => (Return (Some t, None), ls)
       | None => (Raise (IOError "no cached data"), ls)
       end |}.

(** ** Example registries and networks *)

(** Both URLs answer with an error status: 503 first, then 404. *)
Definition two_bad_net : Net :=
  scripted_net (λ n _ _,
    match n with
    | O => Return (http_status 503)
    | _ => Return (http_status 404)
    end).

(** A server that answers every request with a JSON object. *)
Definition json_net : Net :=
  scripted_net (λ _ _ _, Return (ok_json (PDict [("code", PInt 200)]))).



(** One stored entry whose [url] is a two-element list and whose [type]
    is not an allowed one. *)
Definition cat_manager : APIManager :=
  mkManager
    [("cat", mkApi (Some (Many ["cat"])) (Some (Many 0%nat)) (Some "gif")
                   (Some 1%nat) None None (Some 5))]
    [HList ["https://a/cat"; "https://b/cat"]; HDict [("n", PInt 1)]]
    None.

(** An entry whose [url] is the empty list. *)
Definition no_url_manager : APIManager :=
  mkManager
    [("cat", mkApi (Some (Many ["cat"])) (Some (Many 0%nat)) (Some "image")
                   None None None None)]
    [HList []]
    None.

(** Two definitions answer to "cat": one of priority 3, stored first, and
    one of priority 5. *)
Definition two_cats : APIManager :=
  mkManager
    [("kitty", mkApi (Some (Many ["kitty"; "cat"])) (Some (OneStr "https://a/k"))
                     (Some "image") None None None (Some 3));
     ("dog", mkApi (Some (Many ["dog"])) (Some (OneStr "https://a/d"))
                   (Some "image") None None None (Some 9));
     ("cat", mkApi (Some (OneStr "cat")) (Some (OneStr "https://b/c"))
                   (Some "image") None None None (Some 5))]
    [] None.

(** Endpoint "a" has three URLs on one origin, endpoint "b" one URL on
    another. *)
Definition probe_manager : APIManager :=
  mkManager
    [("a", mkApi (Some (Many ["a"])) (Some (Many 0%nat)) (Some "image")
                 None None None None);
     ("b", mkApi (Some (Many ["b"])) (Some (OneStr "https://b/1")) (Some "text")
                 None None None None)]
    [HList ["https://a/1"; "https://a/2"; "https://a/3"]]
    None.

Definition probe_queues : Queues :=
  [("https://a", [mkEntry "a" "https://a/1" []; mkEntry "a" "https://a/2" [];
                  mkEntry "a" "https://a/3" []]);
   ("https://b", [mkEntry "b" "https://b/1" []])].

(** Only "https://a/2" answers. *)
Definition only_a2_net : Net :=
  scripted_net (λ _ u _,
    if String.eqb u "https://a/2" then Return (http_status 200)
    else Raise TimeoutError).

(** ** Specification vocabulary *)

(** [all_fail params tm us w w']: starting in world [w], every URL of [us],
    tried one after the other, fails; [w'] is the world after the last. *)
Inductive all_fail `{Net} (params : option Params) (tm : bool)
    : list string → World → World → Prop :=
| all_fail_nil w : all_fail params tm [] w w
| all_fail_cons u us w got w1 e w2 :
    http_get u params w = (got, w1) →
    attempt tm got = Raise e →
    all_fail params tm us w1 w2 →
    all_fail params tm (u :: us) w w2.




(** Every address stored in a catalogue entry is allocated.  Python has
    no dangling references, so this holds of every reachable state. *)
Definition closed_api (h : Heap) (raw : RawApi) : Prop :=
  match api_url raw with
  | Some (Many l) => (l < length h)%nat
  | _ => True
  end ∧
  match api_params raw with
  | Some l => (l < length h)%nat
  | None => True
  end.

Definition closed (m : APIManager) : Prop :=
  Forall (λ kv, closed_api (heap m) (snd kv)) (apis m).

(** The URL list a stored entry denotes, as [normalize_api_data] reads it. *)
Definition stored_urls (h : Heap) (raw : RawApi) : list string :=
  match api_url raw with
  | None => [""]
  | Some (OneStr s) => [s]
  | Some (Many l) => deref_list h l
  end.

(** The head of a list of matches dominates the rest. *)
Definition head_max (ms : list Match) : Prop :=
  match ms with
  | [] => True
  | top :: rest => Forall (λ x, match_priority x ≤ match_priority top) rest
  end.

(** Length of the longest origin queue. *)
Definition longest (q : Queues) : nat :=
  max_list (map (λ kv, length (snd kv)) q).


(** Every URL of every definition as a probe entry, in catalogue order. *)
Definition probe_entries (h : Heap) (d : list (string * RawApi)) : list Entry :=
  flat_map (λ kv,
    match api_url (snd kv) with
    | None => []
    | Some url =>
        map (λ u, mkEntry (fst kv) u
                    (default [] (deref_dict h <$> api_params (snd kv))))
            (match url with OneStr s => [s] | Many l => deref_list h l end)
    end) d.

(** The file mirrors the registry in memory. *)
Definition in_sync (m : APIManager) : Prop :=
  apis_file m = Some (json_dump (heap m) (apis m)).

(** What every reachable manager satisfies: keys are unique (it is a
    dict), stored addresses are allocated, and the file is up to date. *)
Definition registry_inv (m : APIManager) : Prop :=
  NoDup (dict_keys (apis m)) ∧ closed m ∧ in_sync m.

(** Descending by priority. *)
Definition desc_sorted (ms : list Match) : Prop :=
  StronglySorted (λ a b, match_priority b ≤ match_priority a) ms.

(** A binary answer. *)
Definition png_net : Net :=
  scripted_net (λ _ _ _, Return (ok_binary [Byte.x89; Byte.x50])).

(** Every stored URL is one that [urlparse] accepts. *)
Definition urls_parse `{UrlLib} (h : Heap) (d : list (string * RawApi)) : Prop :=
  Forall (λ e, is_raise (urlparse (entry_url e)) = false) (probe_entries h d).

(** Queues as [group_by_site] builds them: one per origin, each holding
    only URLs of that origin. *)
Definition by_origin `{UrlLib} (q : Queues) : Prop :=
  NoDup (dict_keys q) ∧
  Forall (λ kv, Forall (λ e, extract_base_url (entry_url e) = Return (fst kv))
                       (snd kv)) q.

(** A registry with an entry that has no [url] field. *)
Definition no_url_field_manager : APIManager :=
  mkManager
    [("cat", mkApi (Some (Many ["cat"])) (Some (OneStr "https://a/c")) None
                   None None None None);
     ("dog", mkApi (Some (Many ["dog"])) None None None None None None)]
    [] None.

(** A registry whose second entry holds a URL that [urlparse] rejects. *)
Definition bad_url_manager : APIManager :=
  mkManager
    [("cat", mkApi (Some (Many ["cat"])) (Some (OneStr "https://a/c")) None
                   None None None None);
     ("dog", mkApi (Some (Many ["dog"])) (Some (OneStr "http://[bad")) None
                   None None None None)]
    [] None.

(** The names whose stored type is [t], in registry order. *)
Definition names_of_type (t : string) (d : list (string * RawApi)) : list string :=
  map fst (filter (λ kv, api_type (snd kv) = Some t) d).

(** Names, each followed by the separator. *)
Definition joined (names : list string) : string :=
  foldr (λ k rest, k ++ "、" ++ rest) "" names.

(** One section of the listing: nothing but the blank line when there is
    no name. *)
Definition type_section (t : string) (names : list string) : string :=
  match names with
  | [] => ""
  | _ :: _ => "【" ++ t ++ "】" ++ pretty (length names) ++ "个：" ++ "
" ++ joined names
  end ++ "

".

(** A catalogue as it may sit in a file. *)
Definition cat_file : list (string * JsonApi) :=
  [("cat", mkApi (Some (Many ["cat"])) (Some (Many ["https://a/c"; "https://b/c"]))
                 (Some "image") (Some [("n", PInt 1)]) None None (Some 2));
   ("joke", mkApi (Some (OneStr "joke")) (Some (OneStr "https://a/j"))
                  None None (Some "data.text") (Some true) None)].

(** * Properties of the fetch pipeline *)

Section RequestFacts.
Context `{net : Net} `{utils : Utils}.

Lemma request_from_skip params tm pre w w1 :
  all_fail params tm pre w w1 →
  ∀ le u post,
    request_from le (pre ++ u :: post)%list params tm w
    = request_from None (u :: post) params tm w1.
Proof.
  induction 1 as [w|u0 us w got w1 e w2 Hget Hatt _ IH]; intros le u post.
  - reflexivity.
  - simpl. rewrite Hget, Hatt. apply IH.
Qed.

(** C2.  Let [pre] be a run of URLs that all fail, tried in list order
    from world [w], and let [u] be the URL that follows them.  If [u]
    succeeds, [request] returns its decoded content and stops there (the
    world is the one left by [u]; the URLs after it are not contacted).
    If [u] fails and is the last URL, [request] raises exactly [u]'s
    error. *)
Theorem request_failover params tm pre u post w w1 got w2 :
  all_fail params tm pre w w1 →
  http_get u params w1 = (got, w2) →
  (∀ v, attempt tm got = Return v →
        request (pre ++ u :: post)%list params tm w = (Return v, w2)) ∧
  (∀ e, attempt tm got = Raise e →
        request (pre ++ [u])%list params tm w = (Raise e, w2)).
Proof.
  intros Hpre Hget. unfold request. split.
  - intros v Hv. rewrite (request_from_skip _ _ _ _ _ Hpre).
    simpl. by rewrite Hget, Hv.
  - intros e He. rewrite (request_from_skip _ _ _ _ _ Hpre).
    simpl. by rewrite Hget, He.
Qed.

(** C9.  With an empty URL list the loop body never runs: [request]
    returns [None] without raising and without touching the network, and
    [get_data] turns that into the pair (None, None). *)
Theorem request_empty_urls params tm api_type target w :
  request [] params tm w = (Return PNone, w) ∧
  get_data [] params api_type target w = (Return (None, None), w).
Proof. split; reflexivity. Qed.








End RequestFacts.

(** *** Fetch pipeline: examples *)

(** [request(["bad1", "bad2"], params)] raises the second URL's error. *)
Lemma request_failover_witness :
  @request two_bad_net ["bad1"; "bad2"] None false 0%nat
  = (Raise (ClientResponseError 404), 2%nat).
Proof.
  refine (proj2 (@request_failover two_bad_net None false ["bad1"] "bad2" []
                   0%nat 1%nat (Return (http_status 404)) 2%nat _ _) _ _).
  - eapply all_fail_cons; [reflexivity|reflexivity|constructor].
  - reflexivity.
  - reflexivity.
Defined.





(** * Properties of the registry *)

Section DictFacts.
Context {V : Type}.
Implicit Types (d : list (string * V)) (k : string) (v : V).

Lemma dict_get_cons k k' v d :
  dict_get k ((k', v) :: d) = if String.eqb k' k then Some v else dict_get k d.
Proof. unfold dict_get. simpl. by destruct (String.eqb k' k). Qed.

Lemma dict_get_set_eq k v d : dict_get k (dict_set k v d) = Some v.
Proof.
  induction d as [|[k' v'] d IH]; simpl.
  - by rewrite dict_get_cons, String.eqb_refl.
  - destruct (String.eqb k' k) eqn:E; rewrite dict_get_cons.
    + by rewrite String.eqb_refl.
    + by rewrite E.
Qed.

Lemma dict_get_set_ne k k0 v d :
  k0 ≠ k → dict_get k0 (dict_set k v d) = dict_get k0 d.
Proof.
  intros Hne. induction d as [|[k' v'] d IH]; simpl.
  - rewrite dict_get_cons.
    destruct (String.eqb_spec k k0); [congruence|done].
  - destruct (String.eqb_spec k' k) as [->|Hk]; rewrite !dict_get_cons.
    + destruct (String.eqb_spec k k0); [congruence|done].
    + by rewrite IH.
Qed.

Lemma dict_keys_set k v d :
  dict_keys (dict_set k v d)
  = if bool_decide (k ∈ dict_keys d) then dict_keys d
    else (dict_keys d ++ [k])%list.
Proof.
  induction d as [|[k' v'] d IH]; simpl; [done|].
  destruct (String.eqb_spec k' k) as [->|Hk]; simpl.
  - rewrite bool_decide_eq_true_2; [done|left].
  - rewrite IH. destruct (bool_decide (k ∈ dict_keys d)) eqn:E.
    + apply bool_decide_eq_true in E.
      rewrite bool_decide_eq_true_2; [done|by right].
    + apply bool_decide_eq_false in E.
      rewrite bool_decide_eq_false_2; [done|].
      intros Hin. apply elem_of_cons in Hin as [?|?]; congruence.
Qed.

Lemma dict_get_Some_elem k v d : dict_get k d = Some v → (k, v) ∈ d.
Proof.
  induction d as [|[k' v'] d IH]; [done|]. rewrite dict_get_cons.
  destruct (String.eqb_spec k' k) as [->|Hk].
  - intros [= ->]. left.
  - intros Hd. right. by apply IH.
Qed.

Lemma dict_get_NoDup k v d :
  NoDup (dict_keys d) → (k, v) ∈ d → dict_get k d = Some v.
Proof.
  induction d as [|[k' v'] d IH]; simpl; intros Hnd Hin.
  - by apply elem_of_nil in Hin.
  - apply NoDup_cons in Hnd as [Hk' Hnd]. rewrite dict_get_cons.
    apply elem_of_cons in Hin as [[= -> ->]|Hin].
    + by rewrite String.eqb_refl.
    + destruct (String.eqb_spec k' k) as [->|Hk]; [|by apply IH].
      destruct Hk'. unfold dict_keys.
      apply list_elem_of_fmap. by exists (k, v).
Qed.

End DictFacts.

(** C7 (as the code has it).  When the primary keyword (the first element
    of the keyword list, or the keyword itself when it is stored as a
    plain string) is a non-empty string, [add_api] inserts or overwrites
    the entry under that key, leaves every other entry alone and writes
    the whole registry to the file.  When the keyword field is absent or
    the primary keyword is the empty string, [add_api] returns normally
    (it raises nothing) and leaves registry and file untouched. *)
Theorem add_api_registers (api_info : RawApi) (m : APIManager) :
  (∀ nm, primary_keyword api_info = Return nm → nm ≠ "" →
     ∃ m', add_api api_info m = (Return tt, m') ∧
           apis m' = dict_set nm api_info (apis m) ∧
           dict_get nm (apis m') = Some api_info ∧
           (∀ k, k ≠ nm → dict_get k (apis m') = dict_get k (apis m)) ∧
           heap m' = heap m ∧
           apis_file m' = Some (json_dump (heap m') (apis m'))) ∧
  (api_keyword api_info = None ∨ primary_keyword api_info = Return "" →
     add_api api_info m = (Return tt, m)).
Proof.
  split.
  - intros nm Hnm Hne. unfold add_api. rewrite Hnm.
    assert (truthy_str nm = true) as -> by (by destruct nm).
    simpl. eexists. split; [reflexivity|]. simpl.
    split_and!; try done.
    + apply dict_get_set_eq.
    + intros k Hk. by apply dict_get_set_ne.
  - intros [Hno|Hempty]; unfold add_api.
    + unfold primary_keyword. by rewrite Hno.
    + by rewrite Hempty.
Qed.

(** A registration whose keyword list starts with "cat". *)
Lemma add_api_registers_witness :
  ∃ m', add_api (mkApi (Some (Many ["cat"; "kitty"])) (Some (OneStr "https://a/cat"))
                       (Some "image") None None None None)
                (mkManager [] [] None) = (Return tt, m') ∧
        dict_keys (apis m') = ["cat"] ∧ is_Some (apis_file m').
Proof.
  destruct (proj1 (add_api_registers
                     (mkApi (Some (Many ["cat"; "kitty"]))
                            (Some (OneStr "https://a/cat"))
                            (Some "image") None None None None)
                     (mkManager [] [] None)) "cat" eq_refl ltac:(discriminate))
    as (m' & Hadd & Hapis & _ & _ & _ & Hfile).
  exists m'. split; [exact Hadd|]. split.
  - rewrite Hapis. reflexivity.
  - rewrite Hfile. eexists. reflexivity.
Defined.

(** C7 as stated does not hold: a definition without a keyword field is
    not rejected with a failure; [add_api] returns normally. *)
Lemma add_api_counterexample :
  ¬ (∀ (api_info : RawApi) (m : APIManager),
       api_keyword api_info = None →
       ∃ e, fst (add_api api_info m) = Raise e).
Proof.
  intros H. destruct (H empty_api (mkManager [] [] None) eq_refl) as [e He].
  discriminate He.
Qed.

Section NormalizeFacts.
Implicit Types (h : Heap) (l : loc) (o : HObj).

Lemma deepcopy_allocated h l :
  (l < length h)%nat →
  ∃ o, h !! l = Some o ∧ deepcopy h l = (length h, (h ++ [o])%list).
Proof.
  intros Hl. destruct (lookup_lt_is_Some_2 h l Hl) as [o Ho].
  exists o. split; [done|]. unfold deepcopy. by rewrite Ho.
Qed.

Lemma dump_api_agree h h' raw :
  closed_api h raw →
  (∀ l, (l < length h)%nat → h' !! l = h !! l) →
  dump_api h' raw = dump_api h raw.
Proof.
  intros [Hu Hp] Hagree. unfold dump_api. f_equal.
  - destruct (api_url raw) as [[s|l]|]; [done| |done].
    unfold deref_list. by rewrite (Hagree l Hu).
  - destruct (api_params raw) as [l|]; [|done].
    simpl. unfold deref_dict. by rewrite (Hagree l Hp).
Qed.

Lemma json_dump_agree h h' d :
  Forall (λ kv, closed_api h (snd kv)) d →
  (∀ l, (l < length h)%nat → h' !! l = h !! l) →
  json_dump h' d = json_dump h d.
Proof.
  intros Hc Hagree. unfold json_dump.
  induction Hc as [|[k raw] d Hraw _ IH]; simpl; [done|].
  by rewrite IH, (dump_api_agree h h' raw Hraw Hagree).
Qed.

Lemma normalize_layout nm m raw :
  closed_api (heap m) raw →
  dict_get nm (apis m) = Some raw →
  ∃ ext ou op,
    normalize_api_data nm m
    = (mkApiData nm (length (heap m ++ ext))
         (if bool_decide (default "" (api_type raw) ∈ ALLOWED_TYPES)
          then default "" (api_type raw) else default_api_type)
         (S (length (heap m ++ ext)))
         (default "" (api_target raw)) (default false (api_fuzzy raw))
         (default 0 (api_priority raw)),
       mkManager (apis m) ((heap m ++ ext) ++ [ou; op]) (apis_file m)) ∧
    match ou with HList xs => xs | _ => [] end = stored_urls (heap m) raw ∧
    match op with HDict kv => kv | _ => [] end
    = default [] (deref_dict (heap m) <$> api_params raw).
Proof.
  intros [Hu Hp] Hget. unfold normalize_api_data. rewrite Hget. simpl.
  set (h := heap m) in *.
  (* the list that [urls] is bound to before the copy *)
  assert (∃ urls0 e1,
            match default (OneStr "") (api_url raw) with
            | OneStr s => alloc h (HList [s])
            | Many l => (l, h)
            end = (urls0, (h ++ e1)%list) ∧
            (urls0 < length (h ++ e1))%nat ∧
            deref_list (h ++ e1) urls0 = stored_urls h raw)
    as (urls0 & e1 & -> & Hu0 & Hul).
  { unfold stored_urls, deref_list, alloc.
    destruct (api_url raw) as [[s|l]|]; simpl.
    - exists (length h), [HList [s]]. rewrite length_app. simpl.
      split; [done|]. split; [lia|].
      by rewrite lookup_app_r, Nat.sub_diag by lia.
    - exists l, []. by rewrite app_nil_r.
    - exists (length h), [HList [""]]. rewrite length_app. simpl.
      split; [done|]. split; [lia|].
      by rewrite lookup_app_r, Nat.sub_diag by lia. }
  set (h1 := (h ++ e1)%list) in *.
  (* the dict that [params] is bound to before the copy *)
  assert (∃ params0 e2,
            match api_params raw with
            | Some l =>
                match deref_dict h1 l with
                | [] => alloc h1 (HDict [])
                | _ :: _ => (l, h1)
                end
            | None => alloc h1 (HDict [])
            end = (params0, (h1 ++ e2)%list) ∧
            (params0 < length (h1 ++ e2))%nat ∧
            deref_dict (h1 ++ e2) params0
            = default [] (deref_dict h <$> api_params raw))
    as (params0 & e2 & -> & Hp0 & Hpl).
  { unfold alloc. destruct (api_params raw) as [l|]; simpl.
    - assert (deref_dict h1 l = deref_dict h l) as Hsame.
      { unfold deref_dict, h1. by rewrite lookup_app_l. }
      destruct (deref_dict h1 l) as [|kv kvs] eqn:E.
      + exists (length h1), [HDict []]. rewrite length_app. simpl.
        split; [done|]. split; [lia|]. rewrite <- Hsame.
        unfold deref_dict. by rewrite lookup_app_r, Nat.sub_diag by lia.
      + exists l, []. rewrite app_nil_r. split; [done|].
        split; [unfold h1; rewrite length_app; lia|]. by rewrite <- Hsame.
    - exists (length h1), [HDict []]. rewrite length_app. simpl.
      split; [done|]. split; [lia|].
      unfold deref_dict. by rewrite lookup_app_r, Nat.sub_diag by lia. }
  set (h2 := (h1 ++ e2)%list) in *.
  assert (urls0 < length h2)%nat as Hu2.
  { unfold h2. rewrite length_app. lia. }
  destruct (deepcopy_allocated h2 urls0 Hu2) as (ou & Hou & ->).
  assert (params0 < length (h2 ++ [ou]))%nat as Hp3.
  { rewrite length_app. simpl. lia. }
  destruct (deepcopy_allocated (h2 ++ [ou]) params0 Hp3) as (op & Hop & ->).
  exists (e1 ++ e2)%list, ou, op.
  assert ((h ++ e1 ++ e2)%list = h2) as -> by (unfold h2, h1; by rewrite app_assoc).
  split; [|split].
  - rewrite length_app. simpl. rewrite Nat.add_1_r.
    by rewrite <- (app_assoc h2 [ou] [op]).
  - rewrite <- Hul. unfold deref_list.
    rewrite <- (lookup_app_l h1 e2 urls0 Hu0). fold h2. by rewrite Hou.
  - rewrite <- Hpl. unfold deref_dict.
    rewrite lookup_app_l in Hop by done. by rewrite Hop.
Qed.

End NormalizeFacts.

(** C4 (as the code has it).  For a registered name, [normalize_api_data]
    returns a type among text, image, video and audio (anything else,
    or no type at all, becomes "image"); a URL list equal to the stored
    one, a stored string or a missing field counting as a one-element
    list, so that it is non-empty unless the stored field is an empty
    list; and containers at addresses of their own: whatever is written
    to them afterwards, the registry still reads as it did before the
    call. *)
Theorem normalize_api_data_copy nm m raw :
  closed m →
  dict_get nm (apis m) = Some raw →
  let d := fst (normalize_api_data nm m) in
  let m' := snd (normalize_api_data nm m) in
  ad_type d ∈ ALLOWED_TYPES ∧
  ad_type d = (if bool_decide (default "" (api_type raw) ∈ ALLOWED_TYPES)
               then default "" (api_type raw) else "image") ∧
  deref_list (heap m') (ad_urls d) = stored_urls (heap m) raw ∧
  ((∀ l, api_url raw = Some (Many l) → deref_list (heap m) l ≠ []) →
   deref_list (heap m') (ad_urls d) ≠ []) ∧
  deref_dict (heap m') (ad_params d)
  = default [] (deref_dict (heap m) <$> api_params raw) ∧
  apis m' = apis m ∧
  ∀ o1 o2,
    json_dump (<[ad_urls d := o1]> (<[ad_params d := o2]> (heap m'))) (apis m')
    = json_dump (heap m) (apis m).
Proof.
  intros Hclosed Hget.
  assert (closed_api (heap m) raw) as Hraw.
  { apply dict_get_Some_elem in Hget.
    exact (proj1 (Forall_forall _ _) Hclosed _ Hget). }
  destruct (normalize_layout nm m raw Hraw Hget)
    as (ext & ou & op & -> & Hou & Hop).
  simpl. set (h2 := (heap m ++ ext)%list).
  assert (deref_list (h2 ++ [ou; op]) (length h2) = stored_urls (heap m) raw)
    as Hurls.
  { unfold deref_list. by rewrite lookup_app_r, Nat.sub_diag by lia. }
  split_and!.
  - case_bool_decide as Hty; [done|].
    unfold default_api_type, ALLOWED_TYPES. set_solver.
  - done.
  - done.
  - intros Hne. rewrite Hurls. unfold stored_urls.
    destruct (api_url raw) as [[s|l]|]; [done| |done]. by apply Hne.
  - unfold deref_dict. rewrite lookup_app_r by lia.
    replace (S (length h2) - length h2)%nat with 1%nat by lia. done.
  - done.
  - intros o1 o2. apply json_dump_agree; [done|].
    intros l Hl. unfold h2.
    rewrite !list_lookup_insert_ne by (rewrite length_app; lia).
    by rewrite <- app_assoc, lookup_app_l.
Qed.

Lemma normalize_api_data_copy_witness :
  ad_type (fst (normalize_api_data "cat" cat_manager)) = "image" ∧
  deref_list (heap (snd (normalize_api_data "cat" cat_manager)))
             (ad_urls (fst (normalize_api_data "cat" cat_manager)))
  = ["https://a/cat"; "https://b/cat"].
Proof.
  assert (closed cat_manager) as Hc.
  { repeat constructor; simpl; lia. }
  destruct (normalize_api_data_copy "cat" cat_manager _ Hc eq_refl)
    as (_ & Hty & Hurls & _).
  split; [exact Hty|exact Hurls].
Defined.

(** C4 as stated does not hold: an entry stored with an empty [url] list
    is normalised to an empty [urls]. *)
Lemma normalize_api_data_counterexample :
  ¬ (∀ nm m raw,
       closed m → dict_get nm (apis m) = Some raw →
       ad_type (fst (normalize_api_data nm m)) ∈ ALLOWED_TYPES ∧
       deref_list (heap (snd (normalize_api_data nm m)))
                  (ad_urls (fst (normalize_api_data nm m))) ≠ []).
Proof.
  intros H.
  assert (closed no_url_manager) as Hc.
  { repeat constructor; simpl; lia. }
  destruct (H "cat" no_url_manager _ Hc eq_refl) as [_ Hne].
  by apply Hne.
Qed.

(** * Properties of the matching engine *)

Section MatchFacts.
Implicit Types (x y : Match) (ms : list Match) (d : list (string * RawApi)).

Lemma elem_of_collect_matches msg d x :
  x ∈ collect_matches msg d ↔
  ∃ key raw, x = (default 0 (api_priority raw), key, raw) ∧
             (key, raw) ∈ d ∧ matched msg raw = true.
Proof.
  induction d as [|[k r] d IH]; simpl.
  - split; [intros H; by apply elem_of_nil in H|].
    intros (? & ? & _ & H & _). by apply elem_of_nil in H.
  - destruct (matched msg r) eqn:Hm.
    + rewrite elem_of_cons, IH. split.
      * intros [->|(key & raw & -> & Hin & Hmr)].
        -- exists k, r. split_and!; [done|left|done].
        -- exists key, raw. split_and!; [done|by right|done].
      * intros (key & raw & -> & Hin & Hmr).
        apply elem_of_cons in Hin as [[= -> ->]|Hin]; [by left|].
        right. by exists key, raw.
    + rewrite IH. split.
      * intros (key & raw & -> & Hin & Hmr).
        exists key, raw. split_and!; [done|by right|done].
      * intros (key & raw & -> & Hin & Hmr).
        apply elem_of_cons in Hin as [[= -> ->]|Hin]; [congruence|].
        by exists key, raw.
Qed.

Lemma insert_desc_perm x ms : insert_desc x ms ≡ₚ x :: ms.
Proof.
  induction ms as [|y ms IH]; simpl; [done|].
  destruct (match_priority y <=? match_priority x); [done|].
  rewrite IH. apply Permutation_swap.
Qed.

Lemma sort_desc_perm ms : sort_desc ms ≡ₚ ms.
Proof.
  induction ms as [|x ms IH]; simpl; [done|].
  by rewrite insert_desc_perm, IH.
Qed.

Lemma insert_desc_head_max x ms : head_max ms → head_max (insert_desc x ms).
Proof.
  destruct ms as [|y ms]; simpl; [by constructor|].
  intros Hy. destruct (Z.leb_spec (match_priority y) (match_priority x)).
  - simpl. constructor; [done|].
    eapply Forall_impl; [exact Hy|]. simpl. intros; lia.
  - simpl. rewrite insert_desc_perm. constructor; [lia|done].
Qed.

Lemma sort_desc_head_max ms : head_max (sort_desc ms).
Proof.
  induction ms as [|x ms IH]; simpl; [done|]. by apply insert_desc_head_max.
Qed.

Lemma sort_desc_top ms top rest :
  sort_desc ms = top :: rest →
  top ∈ ms ∧ ∀ x, x ∈ ms → match_priority x ≤ match_priority top.
Proof.
  intros Hs. pose proof (sort_desc_perm ms) as Hp.
  pose proof (sort_desc_head_max ms) as Hm. rewrite Hs in Hp, Hm.
  split.
  - rewrite <- Hp. left.
  - intros x Hx. rewrite <- Hp in Hx.
    apply elem_of_cons in Hx as [->|Hx]; [lia|].
    simpl in Hm. exact (proj1 (Forall_forall _ _) Hm _ Hx).
Qed.

Lemma random_choice_elem {A} draw (seq : list A) :
  seq ≠ [] → ∃ a, random_choice draw seq = Some a ∧ a ∈ seq.
Proof.
  intros Hne. unfold random_choice.
  assert (draw `mod` length seq < length seq)%nat as Hlt.
  { apply Nat.mod_upper_bound. destruct seq; [done|simpl; lia]. }
  destruct (lookup_lt_is_Some_2 _ _ Hlt) as [a Ha].
  exists a. split; [done|]. by eapply list_elem_of_lookup_2.
Qed.

Lemma normalize_api_data_fields nm m :
  ad_name (fst (normalize_api_data nm m)) = nm ∧
  ad_priority (fst (normalize_api_data nm m))
  = default 0 (api_priority (default empty_api (dict_get nm (apis m)))).
Proof.
  unfold normalize_api_data.
  repeat match goal with
         | |- context [let '(_, _) := ?e in _] => destruct e
         end.
  done.
Qed.

(** C3.  When at least one registered definition matches the trigger,
    [match_api_by_name] returns, whatever the random draw, the normalised
    definition of a match [sel] whose priority is the maximum over all
    matches.  In particular, when exactly two definitions match and one
    has the higher priority (5 against 3, say), [sel] is that one for
    every draw. *)
Theorem match_api_by_name_best draw msg m :
  collect_matches msg (apis m) ≠ [] →
  ∃ sel,
    sel ∈ collect_matches msg (apis m) ∧
    (∀ x, x ∈ collect_matches msg (apis m) →
          match_priority x ≤ match_priority sel) ∧
    match_api_by_name draw msg m
    = (Some (fst (normalize_api_data (match_key sel) m)),
       snd (normalize_api_data (match_key sel) m)) ∧
    ad_name (fst (normalize_api_data (match_key sel) m)) = match_key sel ∧
    (NoDup (dict_keys (apis m)) →
     ad_priority (fst (normalize_api_data (match_key sel) m))
     = match_priority sel) ∧
    (∀ x y, collect_matches msg (apis m) ≡ₚ [x; y] →
            match_priority y < match_priority x → sel = x).
Proof.
  intros Hne. unfold match_api_by_name.
  set (ms := collect_matches msg (apis m)) in *.
  destruct (sort_desc ms) as [|top rest] eqn:Hs.
  { pose proof (sort_desc_perm ms) as Hp. rewrite Hs in Hp.
    symmetry in Hp. by apply Permutation_nil_r in Hp. }
  destruct (sort_desc_top ms top rest Hs) as [Htop Hmax].
  assert (same_priority_matches (top :: rest) ≠ []) as Hsame.
  { simpl. rewrite filter_cons_True by done. done. }
  destruct (random_choice_elem draw _ Hsame) as (sel & Hsel & Hin).
  simpl in Hin. apply list_elem_of_filter in Hin as [Hprio Hin].
  assert (sel ∈ ms) as Hselms.
  { pose proof (sort_desc_perm ms) as Hp. rewrite Hs in Hp. by rewrite <- Hp. }
  exists sel. split_and!.
  - done.
  - intros x Hx. rewrite Hprio. by apply Hmax.
  - destruct ms as [|m0 ms0] eqn:Hms; [done|].
    rewrite Hsel. by destruct (normalize_api_data (match_key sel) m).
  - apply normalize_api_data_fields.
  - intros Hnd. rewrite (proj2 (normalize_api_data_fields _ m)).
    apply elem_of_collect_matches in Hselms as (key & raw & -> & Hkr & _).
    unfold match_key, match_priority. simpl.
    by rewrite (dict_get_NoDup _ _ _ Hnd Hkr).
  - intros x y Hxy Hlt.
    assert (sel ∈ [x; y]) as Hs2 by (by rewrite <- Hxy).
    assert (x ∈ ms) as Hx by (rewrite Hxy; left).
    apply Hmax in Hx.
    apply elem_of_cons in Hs2 as [->|Hs2]; [done|].
    apply list_elem_of_singleton in Hs2 as ->. lia.
Qed.

End MatchFacts.

Lemma match_api_by_name_best_witness :
  option_map ad_name (fst (match_api_by_name 7 "cat" two_cats)) = Some "cat" ∧
  option_map ad_priority (fst (match_api_by_name 7 "cat" two_cats)) = Some 5.
Proof.
  destruct (match_api_by_name_best 7 "cat" two_cats ltac:(discriminate))
    as (sel & _ & _ & Heq & Hname & Hprio & Htwo).
  rewrite Heq. simpl.
  specialize (Htwo (5, "cat", mkApi (Some (OneStr "cat"))
                                 (Some (OneStr "https://b/c"))
                                 (Some "image") None None None (Some 5))
                   (3, "kitty", mkApi (Some (Many ["kitty"; "cat"]))
                                   (Some (OneStr "https://a/k"))
                                   (Some "image") None None None (Some 3))
                   (Permutation_swap _ _ _) eq_refl).
  rewrite Hname, Hprio; [|by apply (bool_decide_unpack _)].
  rewrite Htwo. split; reflexivity.
Defined.

Section SubstringFacts.
Implicit Types (p s k msg post : string).

Lemma append_cons a p post : String a p ++ post = String a (p ++ post).
Proof. reflexivity. Qed.

Lemma prefix_spec p s :
  String.prefix p s = true ↔ ∃ post, s = p ++ post.
Proof.
  revert s. induction p as [|a p IH]; intros s; destruct s as [|b s]; cbn.
  - split; [by exists ""|done].
  - split; [intros _; by eexists|done].
  - split; [done|]. intros [post Hpost]. discriminate.
  - destruct (Ascii.ascii_dec a b) as [->|Hab].
    + rewrite IH. split; intros [post Hpost]; exists post.
      * by rewrite append_cons, Hpost.
      * rewrite append_cons in Hpost. congruence.
    + split; [done|]. intros [post Hpost].
      rewrite append_cons in Hpost. congruence.
Qed.

Lemma py_in_str_spec k msg :
  py_in_str k msg = true ↔ ∃ pre post, msg = pre ++ k ++ post.
Proof.
  induction msg as [|c msg IH]; cbn [py_in_str].
  - rewrite orb_false_r, prefix_spec. split.
    + intros [post Hpost]. by exists "", post.
    + intros (pre & post & Hmsg). destruct pre; [by exists post|discriminate].
  - rewrite orb_true_iff, IH, prefix_spec. split.
    + intros [[post Hpost]|(pre & post & ->)].
      * by exists "", post.
      * by exists (String c pre), post.
    + intros (pre & post & Hmsg). destruct pre as [|c' pre].
      * left. by exists post.
      * right. rewrite append_cons in Hmsg. injection Hmsg as -> ->.
        by exists pre, post.
Qed.

End SubstringFacts.

Lemma matched_spec {L D} msg (raw : Api L D) :
  matched msg raw = true ↔
  msg ∈ keywords_of raw ∨
  (api_fuzzy raw = Some true ∧
   ∃ k, k ∈ keywords_of raw ∧ ∃ pre post, msg = pre ++ k ++ post).
Proof.
  unfold matched. case_bool_decide as Hin; [by intuition|].
  destruct (api_fuzzy raw) as [[|]|]; simpl.
  - destruct (existsb _ _) eqn:E.
    + apply existsb_exists in E as (k & Hk & Hsub).
      split; [intros _; right|done]. split; [done|].
      exists k. split; [by apply list_elem_of_In|by apply py_in_str_spec].
    + split; [done|]. intros [?|(_ & k & Hk & Hsub)]; [done|].
      assert (existsb (λ k, py_in_str k msg) (keywords_of raw) = true) as E'.
      { apply existsb_exists. exists k.
        split; [by apply list_elem_of_In|by apply py_in_str_spec]. }
      congruence.
  - split; [done|]. by intros [?|[? _]].
  - split; [done|]. by intros [?|[? _]].
Qed.

(** C8.  If no keyword of any registered definition is the empty string,
    the empty trigger matches nothing and [match_api_by_name] returns
    [None].  A definition matches a trigger when the trigger is one of
    its keywords or, for a fuzzy definition, when one of its keywords
    occurs in the trigger as a contiguous run of characters, compared
    exactly: "ab" matches "abc", "AB" does not. *)
Theorem match_empty_trigger_and_fuzzy :
  (∀ draw m,
     (∀ key raw, (key, raw) ∈ apis m → "" ∉ keywords_of raw) →
     match_api_by_name draw "" m = (None, m)) ∧
  (∀ msg (raw : RawApi),
     matched msg raw = true ↔
     msg ∈ keywords_of raw ∨
     (api_fuzzy raw = Some true ∧
      ∃ k, k ∈ keywords_of raw ∧ ∃ pre post, msg = pre ++ k ++ post)) ∧
  (∀ url ty ps tg prio,
     @matched loc loc "abc"
       (mkApi (Some (Many ["ab"])) url ty ps tg (Some true) prio) = true ∧
     @matched loc loc "abc"
       (mkApi (Some (Many ["AB"])) url ty ps tg (Some true) prio) = false).
Proof.
  split_and!.
  - intros draw m Hkw. unfold match_api_by_name.
    destruct (collect_matches "" (apis m)) as [|x ms] eqn:E; [done|].
    assert (x ∈ collect_matches "" (apis m)) as Hx by (rewrite E; left).
    apply elem_of_collect_matches in Hx as (key & raw & _ & Hin & Hm).
    apply matched_spec in Hm as [Hm|(_ & k & Hk & pre & post & Hsub)].
    + by destruct (Hkw key raw Hin).
    + destruct pre; [|discriminate]. destruct k; [|discriminate].
      by destruct (Hkw key raw Hin).
  - intros msg raw. apply matched_spec.
  - intros. split; reflexivity.
Qed.

Lemma match_empty_trigger_witness :
  match_api_by_name 0 "" two_cats = (None, two_cats).
Proof.
  apply (proj1 match_empty_trigger_and_fuzzy 0%nat two_cats).
  assert (Forall (λ kv, "" ∉ keywords_of (snd kv)) (apis two_cats)) as HF
    by (by apply (bool_decide_unpack _)).
  intros key raw Hin. exact (proj1 (Forall_forall _ _) HF _ Hin).
Defined.

(** * Properties of the fallback orchestrator *)

Section PluginFacts.
Context `{net : Net} `{utils : Utils} `{cache : LocalCache}.

(** C10.  Write [r] for what [get_data] produced.  If [r] is a failure,
    or a success whose text and bytes are both absent or empty, [call_api]
    answers with the local fallback run on the untouched cache state:
    nothing is saved, and the tag is "local" when the cache delivers and
    "error" (with no content) when it does not.  The tag "api" comes back
    only when [get_data] produced content, and then the content is what
    [save_data] returned for it. *)
Theorem call_api_empty_is_failure h api_data params w ls r w1 :
  get_data (deref_list h (ad_urls api_data))
           (Some (params_or params (deref_dict h (ad_params api_data))))
           (ad_type api_data) (ad_target api_data) w = (r, w1) →
  ((is_raise r = true ∨
    ∃ t b, r = Return (t, b) ∧ truthy_text t = false ∧ truthy_bytes b = false) →
   call_api h api_data params w ls
   = (fst (local_fallback api_data ls), w1, snd (local_fallback api_data ls)) ∧
   match local_get_data (ad_type api_data) (ad_name api_data) ls with
   | (Return (t, p), ls1) => local_fallback api_data ls = ((t, p, "local"), ls1)
   | (Raise _, ls1) => local_fallback api_data ls = ((None, None, "error"), ls1)
   end) ∧
  (∀ t p w' ls',
     call_api h api_data params w ls = ((t, p, "api"), w', ls') →
     ∃ text byte,
       r = Return (text, byte) ∧
       truthy_text text || truthy_bytes byte = true ∧
       save_data (ad_type api_data) (ad_name api_data) text byte ls
       = (Return (t, p), ls') ∧
       w' = w1).
Proof.
  intros Hget. split.
  - intros Hr. split.
    + unfold call_api. rewrite Hget.
      destruct (local_fallback api_data ls) as [out ls1].
      destruct Hr as [Hr|(t & b & -> & Ht & Hb)].
      * by destruct r.
      * by rewrite Ht, Hb.
    + unfold local_fallback.
      destruct (local_get_data _ _ ls) as [[[t p]|e] ls1]; done.
  - intros t p w' ls'. unfold call_api. rewrite Hget.
    assert (∀ ls0, snd (fst (local_fallback api_data ls0)) ≠ "api") as Hfb.
    { intros ls0. unfold local_fallback.
      destruct (local_get_data _ _ ls0) as [[[t' p']|e] ls1]; done. }
    destruct r as [[text byte]|e].
    + destruct (truthy_text text || truthy_bytes byte) eqn:Htr.
      * destruct (save_data _ _ text byte ls) as [[[st sp]|e] ls1] eqn:Hsave.
        -- intros [= -> -> -> ->]. by exists text, byte.
        -- specialize (Hfb ls1).
           destruct (local_fallback api_data ls1) as [[[t' p'] tag] ls2].
           intros [= -> -> -> -> ->]. done.
      * specialize (Hfb ls).
        destruct (local_fallback api_data ls) as [[[t' p'] tag] ls2].
        intros [= -> -> -> -> ->]. done.
    + specialize (Hfb ls).
      destruct (local_fallback api_data ls) as [[[t' p'] tag] ls2].
      intros [= -> -> -> -> ->]. done.
Qed.

End PluginFacts.

(** A JSON answer without a [target] yields no content, so the cached
    text is served. *)
Lemma call_api_empty_is_failure_witness :
  @call_api json_net demo_utils demo_cache
    [HList ["https://a/x"]; HDict []]
    (mkApiData "cat" 0%nat "image" 1%nat "" false 0) None
    0%nat [("image/cat", "old")]
  = ((Some "old", None, "local"), 1%nat, [("image/cat", "old")]).
Proof.
  exact (proj1 (proj1 (@call_api_empty_is_failure json_net demo_utils demo_cache
                  [HList ["https://a/x"]; HDict []]
                  (mkApiData "cat" 0%nat "image" 1%nat "" false 0) None
                  0%nat [("image/cat", "old")] _ _ eq_refl)
               (or_intror (ex_intro _ None (ex_intro _ None
                  (conj eq_refl (conj eq_refl eq_refl))))))).
Defined.

(** * Properties of the prober *)

Section FlagFacts.
Implicit Types (flags : Flags) (p : Probe) (ps : list Probe) (nm : string).

Lemma dict_set_NoDup {V} k (v : V) (d : list (string * V)) :
  NoDup (dict_keys d) → NoDup (dict_keys (dict_set k v d)).
Proof.
  intros Hnd. rewrite dict_keys_set. case_bool_decide as Hk; [done|].
  apply NoDup_app. split_and!; [done| |apply NoDup_singleton].
  intros x Hx Hx'. apply list_elem_of_singleton in Hx' as ->. done.
Qed.








Lemma elem_of_flag_names (b : bool) flags nm :
  NoDup (dict_keys flags) →
  nm ∈ map fst (filter (λ kv, snd kv = b) flags) ↔ dict_get nm flags = Some b.
Proof.
  intros Hnd. rewrite list_elem_of_fmap. split.
  - intros ([k v] & -> & Hin). apply list_elem_of_filter in Hin as [Hv Hin].
    simpl in *. subst v. by apply dict_get_NoDup.
  - intros Hget. exists (nm, b). split; [done|].
    apply list_elem_of_filter. split; [done|]. by apply dict_get_Some_elem.
Qed.

End FlagFacts.

Section QueueFacts.
Implicit Types (q : Queues) (e : Entry).

Lemma longest_no_pending q : any_pending q = false → longest q = 0%nat.
Proof.
  unfold longest. induction q as [|[site es] q IH]; simpl; [done|].
  destruct es; simpl; [|done]. intros H. by rewrite IH.
Qed.

Lemma longest_round_rest q : longest (round_rest q) = pred (longest q).
Proof.
  unfold longest. induction q as [|[site es] q IH]; simpl; [done|].
  rewrite IH. destruct es; simpl; lia.
Qed.

Lemma round_batch_cons site es q :
  round_batch ((site, es) :: q)
  = match es with
    | [] => round_batch q
    | e :: _ => e :: round_batch q
    end.
Proof. by destruct es. Qed.

Lemma round_batch_pending q : any_pending q = true → round_batch q ≠ [].
Proof.
  induction q as [|[site es] q IH]; [done|]. rewrite round_batch_cons.
  destruct es; simpl; [exact IH|done].
Qed.

Lemma longest_pending q : any_pending q = true → (0 < longest q)%nat.
Proof.
  unfold longest. induction q as [|[site es] q IH]; simpl; [done|].
  destruct es; simpl; [|lia]. intros H. specialize (IH H). lia.
Qed.

Lemma omap_lookup_cons site es (q : Queues) i :
  omap (λ kv : string * list Entry, snd kv !! i) ((site, es) :: q)
  = match es !! i with
    | None => omap (λ kv : string * list Entry, snd kv !! i) q
    | Some e => e :: omap (λ kv : string * list Entry, snd kv !! i) q
    end.
Proof. reflexivity. Qed.

Lemma round_batch_lookup q : round_batch q = omap (λ kv, snd kv !! 0%nat) q.
Proof.
  induction q as [|[site es] q IH]; [done|].
  rewrite round_batch_cons, omap_lookup_cons, IH. by destruct es.
Qed.

Lemma round_rest_lookup q i :
  omap (λ kv, snd kv !! i) (round_rest q) = omap (λ kv, snd kv !! S i) q.
Proof.
  induction q as [|[site es] q IH]; [done|].
  cbn [round_rest map fst snd]. rewrite !omap_lookup_cons.
  unfold round_rest in IH. rewrite IH. by destruct es.
Qed.

Lemma round_perm q :
  (round_batch q ++ concat (map snd (round_rest q)))%list ≡ₚ concat (map snd q).
Proof.
  induction q as [|[site es] q IH]; [done|]. rewrite round_batch_cons.
  destruct es as [|e es]; simpl; [done|].
  constructor. rewrite <- IH.
  rewrite !(assoc_L app). apply Permutation_app_tail, Permutation_app_comm.
Qed.

End QueueFacts.

Section ProberFacts.
Context `{net : Net} `{urllib : UrlLib}.

Lemma probe_rounds_step q flags w :
  probe_rounds q flags w
  = if any_pending q then
      match round_batch q with
      | [] => (flags, [], w)
      | batch =>
          let gr := gather batch w in
          let flags' := foldl mark flags (fst gr) in
          let rec := probe_rounds (round_rest q) flags' (snd gr) in
          (fst (fst rec), fst gr :: snd (fst rec), snd rec)
      end
    else (flags, [], w).
Proof.
  rewrite probe_rounds_equation_1.
  destruct (inspect (any_pending q)) as [[] H]; simpl; by rewrite H.
Qed.

Lemma gather_entries batch w : map fst (fst (gather batch w)) = batch.
Proof.
  revert w. induction batch as [|e batch IH]; intros w; simpl; [done|].
  destruct (request _ _ _ w) as [r w1]. specialize (IH w1).
  destruct (gather batch w1) as [ps w2]. simpl in *. by rewrite IH.
Qed.

(** What the [while] loop does, round by round. *)
Lemma probe_rounds_spec n :
  ∀ q flags w, longest q = n →
    let res := probe_rounds q flags w in
    length (snd (fst res)) = n ∧
    (∀ i, (i < n)%nat →
          map fst <$> snd (fst res) !! i = Some (omap (λ kv, snd kv !! i) q)) ∧
    fst (fst res) = foldl mark flags (concat (snd (fst res))) ∧
    map fst (concat (snd (fst res))) ≡ₚ concat (map snd q).
Proof.
  induction n as [|n IH]; intros q flags w Hn; rewrite probe_rounds_step.
  - destruct (any_pending q) eqn:Hany.
    { apply longest_pending in Hany. lia. }
    simpl. split_and!; [done|intros; lia|done|].
    clear -Hany. induction q as [|[site es] q IH]; simpl in *; [done|].
    destruct es; [by apply IH|done].
  - destruct (any_pending q) eqn:Hany.
    2:{ apply longest_no_pending in Hany. lia. }
    pose proof (round_batch_pending q Hany) as Hb.
    destruct (round_batch q) as [|e l] eqn:Hbatch; [done|]. clear Hb.
    cbv zeta. set (gr := gather (e :: l) w).
    assert (longest (round_rest q) = n) as Hrest.
    { rewrite longest_round_rest. lia. }
    destruct (IH (round_rest q) (foldl mark flags (fst gr)) (snd gr) Hrest)
      as (Hlen & Hith & Hflags & Hperm).
    cbn [fst snd]. split_and!.
    + simpl. by rewrite Hlen.
    + intros [|i] Hi.
      * simpl. unfold gr. rewrite gather_entries, <- Hbatch.
        by rewrite round_batch_lookup.
      * simpl. rewrite Hith by lia. by rewrite round_rest_lookup.
    + rewrite Hflags. simpl. by rewrite foldl_app.
    + simpl. rewrite fmap_app. unfold gr at 1.
      change (fmap fst) with (map (@fst Entry (result PyVal))).
      rewrite gather_entries, <- Hbatch.
      change (map fst (concat ?x)) with (fst <$> concat x) in Hperm.
      rewrite Hperm. apply round_perm.
Qed.

Lemma dd_append_perm site e (q : Queues) :
  concat (map snd (dd_append site e q)) ≡ₚ (concat (map snd q) ++ [e])%list.
Proof.
  unfold dd_append. induction q as [|[k es] q IH].
  - done.
  - rewrite dict_get_cons. cbn [dict_set].
    destruct (String.eqb k site); cbn [map snd concat default].
    + unfold id. rewrite <- !(assoc_L app).
      apply Permutation_app_head, (Permutation_app_comm [e]).
    + by rewrite IH, (assoc_L app).
Qed.

Lemma add_entries_perm nm us ps (q q' : Queues) :
  add_entries nm us ps q = Return q' →
  concat (map snd q')
  ≡ₚ (concat (map snd q) ++ map (λ u, mkEntry nm u ps) us)%list.
Proof.
  revert q. induction us as [|u us IH]; intros q; simpl.
  - intros [= ->]. by rewrite app_nil_r.
  - destruct (extract_base_url u) as [site|e]; [|done].
    intros Hadd. rewrite (IH _ Hadd), dd_append_perm.
    by rewrite <- (assoc_L app).
Qed.

Lemma group_by_site_perm h d (q q' : Queues) :
  group_by_site h d q = Return q' →
  concat (map snd q') ≡ₚ (concat (map snd q) ++ probe_entries h d)%list.
Proof.
  revert q. induction d as [|[nm raw] d IH]; intros q; simpl.
  - intros [= ->]. by rewrite app_nil_r.
  - destruct (api_url raw) as [url|]; [|done].
    destruct (add_entries nm _ _ q) as [q1|e] eqn:Hadd; [|done].
    intros Hg. rewrite (IH _ Hg), (add_entries_perm _ _ _ _ _ Hadd).
    by rewrite <- (assoc_L app).
Qed.

Lemma add_entries_total nm us ps (q : Queues) :
  Forall (λ u, is_raise (urlparse u) = false) us →
  ∃ q', add_entries nm us ps q = Return q'.
Proof.
  intros Hus. revert q. induction Hus as [|u us Hu _ IH]; intros q; simpl.
  - by exists q.
  - unfold extract_base_url.
    destruct (urlparse u) as [[scheme netloc]|e]; [|done]. apply IH.
Qed.

(** Grouping fails only on an entry without a [url] key or on a URL
    that [urlparse] rejects. *)
Lemma group_by_site_total h d (q : Queues) :
  Forall (λ kv, is_Some (api_url (snd kv))) d →
  urls_parse h d →
  ∃ q', group_by_site h d q = Return q'.
Proof.
  intros Hd. revert q. unfold urls_parse.
  induction Hd as [|[nm raw] d [url Hurl] _ IH]; intros q Hp; simpl.
  - by exists q.
  - simpl in Hurl. rewrite Hurl.
    unfold probe_entries in Hp. simpl in Hp. rewrite Hurl in Hp.
    apply Forall_app in Hp as [Hus Hrest].
    destruct (add_entries_total nm
                (match url with OneStr s => [s] | Many l => deref_list h l end)
                (default [] (deref_dict h <$> api_params raw)) q) as [q1 ->].
    { apply Forall_forall. intros u Hu.
      apply (proj1 (Forall_forall _ _) Hus
               (mkEntry nm u (default [] (deref_dict h <$> api_params raw)))).
      apply list_elem_of_fmap. by exists u. }
    by apply IH.
Qed.

Lemma probe_entries_names h d e :
  e ∈ probe_entries h d → entry_api_name e ∈ dict_keys d.
Proof.
  unfold probe_entries. rewrite list_elem_of_In, in_flat_map.
  intros ([nm raw] & Hin & He). simpl in He.
  apply list_elem_of_In in Hin.
  destruct (api_url raw) as [url|]; [|by destruct He].
  apply in_map_iff in He as (u & <- & _). simpl.
  unfold dict_keys. apply list_elem_of_fmap. by exists (nm, raw).
Qed.


End ProberFacts.


(** * Further properties of the registry *)

Lemma filter_all {A} (P : A → Prop) `{∀ x, Decision (P x)} (l : list A) :
  Forall P l → filter P l = l.
Proof.
  induction 1 as [|x l Hx _ IH]; [done|].
  by rewrite filter_cons_True, IH.
Qed.

Section DictDelFacts.
Context {V : Type}.
Implicit Types (d : list (string * V)) (k : string) (v : V).

Lemma dict_get_None_keys k d : dict_get k d = None ↔ k ∉ dict_keys d.
Proof.
  induction d as [|[k' v'] d IH]; simpl.
  - split; [intros _ H; by apply elem_of_nil in H|done].
  - rewrite dict_get_cons. destruct (String.eqb_spec k' k) as [->|Hk].
    + split; [done|]. intros H. destruct H. left.
    + rewrite IH. split.
      * intros Hn H. apply elem_of_cons in H as [?|?]; [congruence|done].
      * intros Hn H. apply Hn. by right.
Qed.

Lemma dict_keys_del k d :
  NoDup (dict_keys d) →
  dict_keys (dict_del k d) = filter (λ x, x ≠ k) (dict_keys d).
Proof.
  induction d as [|[k' v'] d IH]; simpl; intros Hnd; [done|].
  apply NoDup_cons in Hnd as [Hk' Hnd].
  destruct (String.eqb_spec k' k) as [->|Hk].
  - rewrite filter_cons_False by (by intros H; apply H).
    symmetry. apply filter_all.
    apply Forall_forall. intros x Hx ->. done.
  - rewrite filter_cons_True by done. simpl. by rewrite IH.
Qed.

Lemma dict_get_del_ne k k0 d : k0 ≠ k → dict_get k0 (dict_del k d) = dict_get k0 d.
Proof.
  intros Hne. induction d as [|[k' v'] d IH]; simpl; [done|].
  destruct (String.eqb_spec k' k) as [->|Hk]; rewrite !dict_get_cons.
  - destruct (String.eqb_spec k k0); [congruence|done].
  - by rewrite IH.
Qed.

Lemma dict_get_del_eq k d :
  NoDup (dict_keys d) → dict_get k (dict_del k d) = None.
Proof.
  intros Hnd. apply dict_get_None_keys. rewrite dict_keys_del by done.
  intros H. apply list_elem_of_filter in H as [H _]. by apply H.
Qed.

Lemma dict_del_set_fresh k v d :
  k ∉ dict_keys d → dict_del k (dict_set k v d) = d.
Proof.
  induction d as [|[k' v'] d IH]; simpl; intros Hk.
  - by rewrite String.eqb_refl.
  - apply not_elem_of_cons in Hk as [Hne Hk].
    destruct (String.eqb_spec k' k) as [->|Hk']; [done|]. simpl.
    destruct (String.eqb_spec k' k) as [->|_]; [done|]. by rewrite IH.
Qed.

Lemma dict_del_elem k0 v0 k d : (k0, v0) ∈ dict_del k d → (k0, v0) ∈ d.
Proof.
  induction d as [|[k' v'] d IH]; simpl; [done|].
  destruct (String.eqb k' k); [by right|].
  intros H. apply elem_of_cons in H as [->|H]; [left|right; by apply IH].
Qed.

Lemma dict_set_elem k0 v0 k v d :
  (k0, v0) ∈ dict_set k v d → (k0 = k ∧ v0 = v) ∨ (k0, v0) ∈ d.
Proof.
  induction d as [|[k' v'] d IH]; simpl.
  - intros H. apply list_elem_of_singleton in H as [= -> ->]. by left.
  - destruct (String.eqb k' k).
    + intros H. apply elem_of_cons in H as [[= -> ->]|H]; [by left|].
      right. by right.
    + intros H. apply elem_of_cons in H as [->|H]; [right; left|].
      destruct (IH H) as [?|?]; [by left|right; by right].
Qed.

End DictDelFacts.

Section RegistryFacts.
Implicit Types (m : APIManager) (nm : string) (raw : RawApi).

Lemma closed_api_grow (h h' : Heap) raw :
  closed_api h raw → (length h ≤ length h')%nat → closed_api h' raw.
Proof.
  unfold closed_api. intros [Hu Hp] Hle. split.
  - destruct (api_url raw) as [[s|l]|]; [done|lia|done].
  - destruct (api_params raw) as [l|]; [lia|done].
Qed.

(** [normalize_api_data] reads the registry only through the entry it
    looks up. *)
Lemma normalize_api_data_entry nm m :
  let raw := default empty_api (dict_get nm (apis m)) in
  let r0 := normalize_api_data nm (mkManager [(nm, raw)] (heap m) (apis_file m)) in
  normalize_api_data nm m
  = (fst r0, mkManager (apis m) (heap (snd r0)) (apis_file m)).
Proof.
  intros raw r0. unfold r0, normalize_api_data. cbn [apis heap apis_file].
  rewrite dict_get_cons, String.eqb_refl.
  change (default empty_api (Some raw)) with raw. fold raw.
  repeat match goal with
         | |- context [let '(_, _) := ?e in _] => destruct e
         end.
  done.
Qed.

Lemma normalize_api_data_grows nm m :
  closed m →
  ∃ ext, heap (snd (normalize_api_data nm m)) = (heap m ++ ext)%list ∧
         apis (snd (normalize_api_data nm m)) = apis m ∧
         apis_file (snd (normalize_api_data nm m)) = apis_file m.
Proof.
  intros Hc. rewrite normalize_api_data_entry. cbn [snd apis heap apis_file].
  set (raw := default empty_api (dict_get nm (apis m))).
  assert (closed_api (heap m) raw) as Hraw.
  { unfold raw. destruct (dict_get nm (apis m)) as [r|] eqn:E; [|done].
    apply dict_get_Some_elem in E.
    exact (proj1 (Forall_forall _ _) Hc _ E). }
  destruct (normalize_layout nm (mkManager [(nm, raw)] (heap m) (apis_file m))
              raw Hraw) as (ext & ou & op & -> & _).
  { cbn [apis]. by rewrite dict_get_cons, String.eqb_refl. }
  cbn [snd heap]. exists (ext ++ [ou; op])%list. by rewrite (assoc_L app).
Qed.

Lemma json_dump_grow (h ext : Heap) d :
  Forall (λ kv, closed_api h (snd kv)) d →
  json_dump (h ++ ext) d = json_dump h d.
Proof.
  intros Hc. apply json_dump_agree; [done|].
  intros l Hl. by apply lookup_app_l.
Qed.

Lemma closed_grow (h ext : Heap) d :
  Forall (λ kv, closed_api h (snd kv)) d →
  Forall (λ kv : string * RawApi, closed_api (h ++ ext) (snd kv)) d.
Proof.
  intros Hc. eapply Forall_impl; [exact Hc|]. intros kv Hkv.
  eapply closed_api_grow; [exact Hkv|]. rewrite length_app. lia.
Qed.

Lemma match_api_by_name_state draw msg m :
  snd (match_api_by_name draw msg m) = m ∨
  ∃ key, snd (match_api_by_name draw msg m)
         = snd (normalize_api_data key m).
Proof.
  unfold match_api_by_name.
  destruct (collect_matches msg (apis m)); [by left|].
  destruct (random_choice _ _) as [sel|]; [|by left].
  right. exists (match_key sel).
  by destruct (normalize_api_data (match_key sel) m).
Qed.

(** X1.  [remove_api] on a registered name deletes that entry and only
    that entry, keeps the order of the others and writes the registry to
    the file; on an unknown name it changes nothing and writes nothing. *)
Theorem remove_api_spec nm m :
  NoDup (dict_keys (apis m)) →
  (dict_get nm (apis m) = None → remove_api nm m = m) ∧
  (is_Some (dict_get nm (apis m)) →
   dict_get nm (apis (remove_api nm m)) = None ∧
   (∀ k, k ≠ nm →
         dict_get k (apis (remove_api nm m)) = dict_get k (apis m)) ∧
   get_apis_names (remove_api nm m)
   = filter (λ k, k ≠ nm) (get_apis_names m) ∧
   heap (remove_api nm m) = heap m ∧
   in_sync (remove_api nm m)).
Proof.
  intros Hnd. unfold remove_api. split.
  - by intros ->.
  - intros [raw ->]. unfold get_apis_names, in_sync. simpl. split_and!.
    + by apply dict_get_del_eq.
    + intros k Hk. by apply dict_get_del_ne.
    + by apply dict_keys_del.
    + done.
    + done.
Qed.

Lemma remove_api_spec_witness :
  get_apis_names (remove_api "dog" two_cats) = ["kitty"; "cat"].
Proof.
  destruct (proj2 (remove_api_spec "dog" two_cats
                     ltac:(by apply (bool_decide_unpack _)))
                  ltac:(by eexists))
    as (_ & _ & Hnames & _).
  rewrite Hnames. reflexivity.
Defined.

(** X2.  Registering a definition under a name that is not yet in the
    registry and removing that name again gives back the registry as it
    was, order included, and the file then holds exactly that registry. *)
Theorem add_then_remove_api (api_info : RawApi) m nm :
  primary_keyword api_info = Return nm →
  nm ≠ "" →
  nm ∉ get_apis_names m →
  apis (remove_api nm (snd (add_api api_info m))) = apis m ∧
  heap (remove_api nm (snd (add_api api_info m))) = heap m ∧
  apis_file (remove_api nm (snd (add_api api_info m)))
  = Some (json_dump (heap m) (apis m)).
Proof.
  intros Hnm Hne Hfresh. unfold add_api. rewrite Hnm.
  assert (truthy_str nm = true) as -> by (by destruct nm).
  cbn [negb snd]. unfold remove_api, _save_data. cbn [apis heap apis_file].
  rewrite dict_get_set_eq. cbn [apis heap apis_file].
  by rewrite dict_del_set_fresh.
Qed.

Lemma add_then_remove_api_witness :
  apis (remove_api "bird"
          (snd (add_api (mkApi (Some (OneStr "bird")) None None None None None None)
                        two_cats)))
  = apis two_cats.
Proof.
  exact (proj1 (add_then_remove_api
                  (mkApi (Some (OneStr "bird")) None None None None None None)
                  two_cats "bird" eq_refl ltac:(discriminate)
                  ltac:(by apply (bool_decide_unpack _)))).
Defined.

(** X3.  After a successful [add_api] the list of names is the old one
    when the name was already registered (the entry keeps its place) and
    the old one with the name appended otherwise; names never repeat. *)
Theorem add_api_names (api_info : RawApi) m nm :
  primary_keyword api_info = Return nm →
  nm ≠ "" →
  NoDup (get_apis_names m) →
  get_apis_names (snd (add_api api_info m))
  = (if bool_decide (nm ∈ get_apis_names m) then get_apis_names m
     else (get_apis_names m ++ [nm])%list) ∧
  NoDup (get_apis_names (snd (add_api api_info m))).
Proof.
  intros Hnm Hne Hnd. unfold add_api. rewrite Hnm.
  assert (truthy_str nm = true) as -> by (by destruct nm).
  unfold get_apis_names. cbn [negb snd _save_data apis]. split.
  - apply dict_keys_set.
  - rewrite dict_keys_set. case_bool_decide as Hin; [done|].
    apply NoDup_app. split_and!; [done| |apply NoDup_singleton].
    intros x Hx Hx'. apply list_elem_of_singleton in Hx' as ->. done.
Qed.

Lemma add_api_names_witness :
  get_apis_names
    (snd (add_api (mkApi (Some (Many ["dog"; "puppy"])) None None None None None None)
                  two_cats))
  = ["kitty"; "dog"; "cat"].
Proof.
  exact (proj1 (add_api_names
                  (mkApi (Some (Many ["dog"; "puppy"])) None None None None None None)
                  two_cats "dog" eq_refl ltac:(discriminate)
                  ltac:(by apply (bool_decide_unpack _)))).
Defined.

(** X4.  Unique names, allocated addresses and a file that mirrors the
    registry are kept by every registry operation: [add_api] (for a
    definition whose own addresses are allocated), [remove_api],
    [normalize_api_data] and [match_api_by_name]. *)
Theorem registry_inv_preserved m :
  registry_inv m →
  (∀ api_info : RawApi, closed_api (heap m) api_info →
                        registry_inv (snd (add_api api_info m))) ∧
  (∀ nm, registry_inv (remove_api nm m)) ∧
  (∀ nm, registry_inv (snd (normalize_api_data nm m))) ∧
  (∀ draw msg, registry_inv (snd (match_api_by_name draw msg m))).
Proof.
  intros (Hnd & Hc & Hs).
  assert (∀ nm, registry_inv (snd (normalize_api_data nm m))) as Hnorm.
  { intros nm. destruct (normalize_api_data_grows nm m Hc)
      as (ext & Hh & Ha & Hf).
    unfold registry_inv, closed, in_sync. rewrite Hh, Ha, Hf. split_and!.
    - done.
    - by apply closed_grow.
    - by rewrite json_dump_grow. }
  split_and!.
  - intros api_info Hinfo. unfold add_api.
    destruct (primary_keyword api_info) as [nm|e]; [|done].
    destruct (truthy_str nm); [|done].
    unfold registry_inv, closed, in_sync. cbn [negb snd _save_data apis heap apis_file].
    split_and!.
    + by apply dict_set_NoDup.
    + apply Forall_forall. intros [k v] Hkv.
      apply dict_set_elem in Hkv as [[-> ->]|Hkv]; [done|].
      exact (proj1 (Forall_forall _ _) Hc _ Hkv).
    + done.
  - intros nm. unfold remove_api.
    destruct (dict_get nm (apis m)); [|done].
    unfold registry_inv, closed, in_sync. cbn [_save_data apis heap apis_file].
    split_and!.
    + rewrite dict_keys_del by done. by apply NoDup_filter.
    + apply Forall_forall. intros [k v] Hkv. apply dict_del_elem in Hkv.
      exact (proj1 (Forall_forall _ _) Hc _ Hkv).
    + done.
  - done.
  - intros draw msg.
    destruct (match_api_by_name_state draw msg m) as [->|[key ->]]; [done|].
    apply Hnorm.
Qed.

Lemma registry_inv_preserved_witness :
  registry_inv (snd (match_api_by_name 3 "cat" (_save_data two_cats))).
Proof.
  refine (proj2 (proj2 (proj2 (registry_inv_preserved (_save_data two_cats) _)))
                3%nat "cat").
  split_and!.
  - by apply (bool_decide_unpack _).
  - repeat constructor.
  - reflexivity.
Defined.

End RegistryFacts.

(** * Further properties of the matching engine *)

Section FindFacts.
Implicit Types (x y : Match) (ms : list Match) (m : APIManager).

(** Both loops collect the same matches. *)
Lemma find_matches_loop_collect msg (d : list (string * RawApi)) :
  find_matches_loop msg d = collect_matches msg d.
Proof.
  induction d as [|[key raw] d IH]; simpl; [done|]. rewrite IH.
  unfold matched. destruct (bool_decide _); [done|]. simpl.
  by destruct (_ && _).
Qed.

Lemma insert_desc_sorted x ms : desc_sorted ms → desc_sorted (insert_desc x ms).
Proof.
  unfold desc_sorted. induction 1 as [|y ms Hs IH Hy]; simpl.
  - repeat constructor.
  - destruct (Z.leb_spec (match_priority y) (match_priority x)).
    + constructor; [by constructor|]. constructor; [done|].
      eapply Forall_impl; [exact Hy|]. simpl. intros; lia.
    + constructor; [done|]. rewrite insert_desc_perm.
      constructor; [lia|done].
Qed.

Lemma sort_desc_sorted ms : desc_sorted (sort_desc ms).
Proof.
  induction ms as [|x ms IH]; simpl; [constructor|].
  by apply insert_desc_sorted.
Qed.

Lemma insert_desc_filter p x ms :
  filter (λ y, match_priority y = p) (insert_desc x ms)
  = filter (λ y, match_priority y = p) (x :: ms).
Proof.
  induction ms as [|y ms IH]; simpl; [done|].
  destruct (Z.leb_spec (match_priority y) (match_priority x)); [done|].
  rewrite !filter_cons, IH, !filter_cons.
  repeat case_decide; try done. lia.
Qed.

Lemma sort_desc_filter p ms :
  filter (λ y, match_priority y = p) (sort_desc ms)
  = filter (λ y, match_priority y = p) ms.
Proof.
  induction ms as [|x ms IH]; simpl; [done|].
  by rewrite insert_desc_filter, !filter_cons, IH.
Qed.

(** X5.  [find_api_matches] returns exactly the definitions that match
    (each once, with its priority and key), ordered by descending
    priority; definitions of equal priority keep their registry order. *)
Theorem find_api_matches_sorted msg m :
  find_api_matches msg m ≡ₚ collect_matches msg (apis m) ∧
  (∀ x, x ∈ find_api_matches msg m ↔
        ∃ key raw, x = (default 0 (api_priority raw), key, raw) ∧
                   (key, raw) ∈ apis m ∧ matched msg raw = true) ∧
  desc_sorted (find_api_matches msg m) ∧
  (∀ p, filter (λ x, match_priority x = p) (find_api_matches msg m)
        = filter (λ x, match_priority x = p) (collect_matches msg (apis m))).
Proof.
  unfold find_api_matches. rewrite find_matches_loop_collect. split_and!.
  - apply sort_desc_perm.
  - intros x. rewrite sort_desc_perm. apply elem_of_collect_matches.
  - apply sort_desc_sorted.
  - intros p. apply sort_desc_filter.
Qed.

Lemma match_api_by_name_sel draw msg m :
  collect_matches msg (apis m) ≠ [] →
  ∃ top rest sel,
    sort_desc (collect_matches msg (apis m)) = top :: rest ∧
    sel ∈ sort_desc (collect_matches msg (apis m)) ∧
    match_priority sel = match_priority top ∧
    match_api_by_name draw msg m
    = (Some (fst (normalize_api_data (match_key sel) m)),
       snd (normalize_api_data (match_key sel) m)).
Proof.
  intros Hne. unfold match_api_by_name.
  set (ms := collect_matches msg (apis m)) in *.
  destruct (sort_desc ms) as [|top rest] eqn:Hs.
  { pose proof (sort_desc_perm ms) as Hp. rewrite Hs in Hp.
    symmetry in Hp. by apply Permutation_nil_r in Hp. }
  assert (same_priority_matches (top :: rest) ≠ []) as Hsame.
  { simpl. by rewrite filter_cons_True. }
  destruct (random_choice_elem draw _ Hsame) as (sel & Hsel & Hin).
  simpl in Hin. apply list_elem_of_filter in Hin as [Hprio Hin].
  exists top, rest, sel. split_and!; [done|done|done|].
  destruct ms as [|m0 ms0]; [done|].
  rewrite Hsel. by destruct (normalize_api_data (match_key sel) m).
Qed.

(** X6.  [match_api_by_name] and [find_api_matches] agree: the first
    returns nothing exactly when the second returns the empty list, and
    otherwise it returns the normalised definition of an element of that
    list whose priority is that of the list's first element. *)
Theorem match_agrees_with_find draw msg m :
  (find_api_matches msg m = [] →
   match_api_by_name draw msg m = (None, m)) ∧
  (∀ top rest, find_api_matches msg m = top :: rest →
     ∃ sel, sel ∈ find_api_matches msg m ∧
            match_priority sel = match_priority top ∧
            fst (match_api_by_name draw msg m)
            = Some (fst (normalize_api_data (match_key sel) m))).
Proof.
  unfold find_api_matches. rewrite find_matches_loop_collect. split.
  - intros Hnil.
    assert (collect_matches msg (apis m) = []) as Hc.
    { pose proof (sort_desc_perm (collect_matches msg (apis m))) as Hp.
      rewrite Hnil in Hp. by apply Permutation_nil_l in Hp. }
    unfold match_api_by_name. by rewrite Hc.
  - intros top rest Hs.
    assert (collect_matches msg (apis m) ≠ []) as Hne.
    { intros Hc. by rewrite Hc in Hs. }
    destruct (match_api_by_name_sel draw msg m Hne)
      as (top' & rest' & sel & Hs' & Hin & Hprio & ->).
    rewrite Hs in Hs'. injection Hs' as <- <-.
    exists sel. split_and!; done.
Qed.

Lemma match_agrees_with_find_witness :
  ∃ sel, sel ∈ find_api_matches "cat" two_cats ∧ match_priority sel = 5 ∧
         fst (match_api_by_name 1 "cat" two_cats)
         = Some (fst (normalize_api_data (match_key sel) two_cats)).
Proof.
  exact (proj2 (match_agrees_with_find 1 "cat" two_cats) _ _ eq_refl).
Defined.

Lemma keyword_matches nm (raw : RawApi) key (d : list (string * RawApi)) :
  (key, raw) ∈ d → nm ∈ keywords_of raw → collect_matches nm d ≠ [].
Proof.
  intros Hin Hkw Hnil.
  assert ((default 0 (api_priority raw), key, raw) ∈ collect_matches nm d) as H.
  { apply elem_of_collect_matches. exists key, raw. split_and!; [done|done|].
    apply matched_spec. by left. }
  rewrite Hnil in H. by apply elem_of_nil in H.
Qed.

Lemma primary_keyword_in (api_info : RawApi) nm :
  primary_keyword api_info = Return nm → nm ≠ "" → nm ∈ keywords_of api_info.
Proof.
  unfold primary_keyword, keywords_of.
  destruct (api_keyword api_info) as [[s|[|k ks]]|]; simpl.
  - intros [= ->] _. left.
  - done.
  - intros [= ->] _. left.
  - intros [= <-] H. done.
Qed.

(** X7.  A definition that [add_api] has just stored is reachable: a
    trigger equal to its primary keyword always resolves, and the
    definition that comes back is the normalised form of a registered
    entry that matches the trigger and whose priority is at least the
    new definition's. *)
Theorem added_api_is_matched (api_info : RawApi) m nm draw :
  primary_keyword api_info = Return nm →
  nm ≠ "" →
  NoDup (dict_keys (apis m)) →
  ∃ d raw,
    fst (match_api_by_name draw nm (snd (add_api api_info m))) = Some d ∧
    dict_get (ad_name d) (apis (snd (add_api api_info m))) = Some raw ∧
    matched nm raw = true ∧
    ad_priority d = default 0 (api_priority raw) ∧
    default 0 (api_priority api_info) ≤ ad_priority d.
Proof.
  intros Hnm Hne Hnd.
  set (m' := snd (add_api api_info m)).
  assert (apis m' = dict_set nm api_info (apis m)) as Hapis.
  { unfold m', add_api. rewrite Hnm.
    assert (truthy_str nm = true) as -> by (by destruct nm). done. }
  assert ((nm, api_info) ∈ apis m') as Hin.
  { rewrite Hapis. apply dict_get_Some_elem, dict_get_set_eq. }
  assert (NoDup (dict_keys (apis m'))) as Hnd'.
  { rewrite Hapis. by apply dict_set_NoDup. }
  pose proof (primary_keyword_in api_info nm Hnm Hne) as Hkw.
  destruct (match_api_by_name_sel draw nm m' (keyword_matches _ _ _ _ Hin Hkw))
    as (top & rest & sel & Hs & Hsel & Hprio & Heq).
  destruct (sort_desc_top _ _ _ Hs) as [_ Hmax].
  rewrite sort_desc_perm in Hsel.
  apply elem_of_collect_matches in Hsel as (key & raw & -> & Hkr & Hm).
  destruct (normalize_api_data_fields key m') as [Hname Hpr].
  exists (fst (normalize_api_data key m')), raw.
  assert (dict_get key (apis m') = Some raw) as Hg by (by apply dict_get_NoDup).
  rewrite Hname, Hpr, Hg. simpl.
  split_and!; [by rewrite Heq|done|done|done|].
  change (default 0 (api_priority raw))
    with (match_priority (default 0 (api_priority raw), key, raw)).
  rewrite Hprio.
  apply (Hmax (default 0 (api_priority api_info), nm, api_info)).
  apply elem_of_collect_matches. exists nm, api_info.
  split_and!; [done|done|]. apply matched_spec. by left.
Qed.

Lemma added_api_is_matched_witness :
  ∃ d, fst (match_api_by_name 0 "bird"
              (snd (add_api (mkApi (Some (OneStr "bird")) None None None None
                                   None (Some 7))
                            two_cats))) = Some d ∧
       7 ≤ ad_priority d.
Proof.
  destruct (added_api_is_matched
              (mkApi (Some (OneStr "bird")) None None None None None (Some 7))
              two_cats "bird" 0%nat eq_refl ltac:(discriminate)
              ltac:(by apply (bool_decide_unpack _)))
    as (d & raw & Heq & _ & _ & _ & Hle).
  by exists d.
Defined.

(** X8.  Every trigger word that [_generate_api_list] collects resolves:
    [match_api_by_name] returns a definition for it, whatever the draw. *)
Theorem api_names_resolve enable m nm draw :
  nm ∈ api_names enable m →
  is_Some (fst (match_api_by_name draw nm m)).
Proof.
  unfold api_names. rewrite list_elem_of_In, in_flat_map.
  intros ([key raw] & Hin & Hnm). apply list_elem_of_In in Hin.
  simpl in Hnm. destruct (bool_decide _); [|done].
  destruct (keywords_of raw) as [|k ks] eqn:Hk; [done|].
  destruct Hnm as [->|[]].
  assert (nm ∈ keywords_of raw) as Hkw by (rewrite Hk; left).
  destruct (match_api_by_name_sel draw nm m (keyword_matches _ _ _ _ Hin Hkw))
    as (top & rest & sel & _ & _ & _ & ->).
  by eexists.
Qed.

Lemma api_names_resolve_witness :
  is_Some (fst (match_api_by_name 4 "kitty" two_cats)).
Proof.
  apply (api_names_resolve ["image"] two_cats "kitty" 4%nat).
  by apply (bool_decide_unpack _).
Defined.

End FindFacts.

(** * Further properties of the fetch pipeline *)

Section RequestMore.
Context `{net : Net} `{utils : Utils}.

Lemma attempt_test_mode got v : attempt true got = Return v → v = PNone.
Proof.
  unfold attempt. destruct got as [resp|e]; [|done].
  destruct (raise_for_status resp); [|done]. by intros [= <-].
Qed.

Lemma request_from_test_mode le urls params w v w' :
  request_from le urls params true w = (Return v, w') → v = PNone.
Proof.
  revert le w. induction urls as [|u urls IH]; intros le w; simpl.
  - destruct le; [done|]. by intros [= <- _].
  - destruct (http_get u params w) as [got w1].
    destruct (attempt true got) as [v0|e] eqn:Ha.
    + intros [= <- _]. by apply attempt_test_mode in Ha.
    + apply IH.
Qed.

(** X9.  In test mode [request] never hands back a body: it either
    raises or returns [None], for every URL list and every network. *)
Theorem request_test_mode_none urls params w :
  match fst (request urls params true w) with
  | Return v => v = PNone
  | Raise _ => True
  end.
Proof.
  destruct (request urls params true w) as [[v|e] w'] eqn:E; [|done].
  simpl. by apply request_from_test_mode in E.
Qed.

(** X10.  A binary answer passes through [get_data] untouched, whatever
    the declared type and target: the bytes come back as the second
    component and no further request is made. *)
Theorem get_data_bytes urls params api_type target w b w1 :
  request urls params false w = (Return (PBytes b), w1) →
  get_data urls params api_type target w = (Return (None, Some b), w1).
Proof.
  intros Hreq. unfold get_data, final_data. by rewrite Hreq.
Qed.


End RequestMore.

Lemma get_data_bytes_witness :
  @get_data png_net demo_utils ["https://a/p"] None "video" "data.url" 0%nat
  = (Return (None, Some [Byte.x89; Byte.x50]), 1%nat).
Proof.
  exact (@get_data_bytes png_net demo_utils ["https://a/p"] None "video"
           "data.url" 0%nat _ 1%nat eq_refl).
Defined.

Section RequestCount.
Context (script : nat → string → option Params → result Response).
Context `{utils : Utils}.

Lemma request_from_count le urls params tm (n : nat) :
  let r := @request_from (scripted_net script) le urls params tm n in
  (n ≤ snd r ≤ n + length urls)%nat ∧
  (is_raise (fst r) = true → snd r = (n + length urls)%nat) ∧
  (urls ≠ [] → (n < snd r)%nat).
Proof.
  revert le n. induction urls as [|u urls IH]; intros le n; simpl.
  - destruct le; simpl; repeat split; intros; try lia; congruence.
  - destruct (attempt tm (script n u params)) as [v|e]; simpl.
    + repeat split; intros; try lia; congruence.
    + specialize (IH (Some e) (S n)). simpl in IH.
      destruct (@request_from (scripted_net script) (Some e) urls params tm (S n))
        as [r n'].
      change (@World (scripted_net script)) with nat in n'.
      simpl in *. destruct IH as (Hle & Hraise & _).
      repeat split; intros; try lia.
      rewrite Hraise by done. lia.
Qed.

(** X12.  Counting the GET requests on a network that numbers them:
    [request] sends at least one when the list is non-empty, never more
    than there are URLs, and exactly one per URL when it ends in a
    failure. *)
Theorem request_count urls params tm (n : nat) :
  let r := @request (scripted_net script) urls params tm n in
  (n ≤ snd r ≤ n + length urls)%nat ∧
  (is_raise (fst r) = true → snd r = (n + length urls)%nat) ∧
  (urls ≠ [] → (n < snd r)%nat).
Proof. apply request_from_count. Qed.

(** X13.  [get_data] sends at most two GET requests per URL, and at most
    one per URL when the declared type is "text". *)
Theorem get_data_count urls params api_type target (n : nat) :
  let r := @get_data (scripted_net script) utils urls params api_type target n in
  (n ≤ snd r ≤ n + 2 * length urls)%nat ∧
  (api_type = "text" → (snd r ≤ n + length urls)%nat).
Proof.
  unfold get_data, final_data.
  pose proof (request_count urls params false n) as (H1 & _).
  destruct (@request (scripted_net script) urls params false n)
    as [[data|e] n1] eqn:E1; simpl in H1; [|simpl; split; [lia|intros; lia]].
  assert (∀ r2 n2, @redownload (scripted_net script) utils urls api_type data n1
                   = (r2, n2) →
                   (n1 ≤ n2 ≤ n1 + length urls)%nat ∧
                   (api_type = "text" → n2 = n1)) as Hre.
  { intros r2 n2. unfold redownload.
    destruct data; try (intros [= <- <-]; split; [lia|done]).
    case_bool_decide as Hty.
    - destruct (extract_url s) as [url|]; [|intros [= <- <-]; split; [lia|done]].
      destruct (truthy_str url); [|intros [= <- <-]; split; [lia|done]].
      pose proof (request_count urls None false n1) as (H2 & _).
      destruct (@request (scripted_net script) urls None false n1)
        as [[v|e] n2'] eqn:E2; simpl in H2.
      + destruct v; intros [= <- <-]; split; (lia || done).
      + intros [= <- <-]. split; [lia|done].
    - intros [= <- <-]. split; [lia|done]. }
  destruct (@redownload (scripted_net script) utils urls api_type data n1)
    as [r2 n2] eqn:E2.
  destruct (Hre r2 n2 eq_refl) as [H2 Htext].
  destruct r2; simpl; split; try lia; intros Ht; rewrite (Htext Ht); lia.
Qed.

End RequestCount.

Lemma request_count_witness :
  snd (@request (scripted_net (λ _ _ _, Return (http_status 404)))
         ["bad1"; "bad2"] None false 5%nat) = 7%nat.
Proof.
  exact (proj1 (proj2 (request_count (λ _ _ _, Return (http_status 404))
                         ["bad1"; "bad2"] None false 5%nat))
               eq_refl).
Defined.

Lemma get_data_count_witness :
  (snd (@get_data (scripted_net (λ _ _ _, Return (ok_text "https://a/pic.png")))
          demo_utils ["https://a/x"] None "text" "" 0%nat)
   ≤ 1)%nat.
Proof.
  exact (proj2 (@get_data_count (λ _ _ _, Return (ok_text "https://a/pic.png"))
                  demo_utils ["https://a/x"] None "text" "" 0%nat) eq_refl).
Defined.

(** * Further properties of the prober *)

Section ProberMore.
Context `{net : Net} `{urllib : UrlLib}.

Lemma group_by_site_app h d1 d2 (q : Queues) :
  group_by_site h (d1 ++ d2) q
  = match group_by_site h d1 q with
    | Return q1 => group_by_site h d2 q1
    | Raise e => Raise e
    end.
Proof.
  revert q. induction d1 as [|[nm raw] d1 IH]; intros q; simpl; [done|].
  destruct (api_url raw); [|done].
  destruct (add_entries nm _ _ q); [apply IH|done].
Qed.

Lemma add_entries_bad_url nm us1 u us2 ps (q : Queues) e :
  Forall (λ u, is_raise (urlparse u) = false) us1 →
  urlparse u = Raise e →
  add_entries nm (us1 ++ u :: us2) ps q = Raise e.
Proof.
  intros Hus Hu. revert q. induction Hus as [|u1 us1 Hu1 _ IH]; intros q; simpl.
  - unfold extract_base_url. by rewrite Hu.
  - unfold extract_base_url.
    destruct (urlparse u1) as [[scheme netloc]|e1]; [|done]. apply IH.
Qed.

(** X14.  [batch_test_apis] stops at the first stored definition it
    cannot group, before any request is sent: with [KeyError] when that
    definition has no [url] field, and with the error of [urlparse] when
    one of its URLs is rejected (the URLs before it being accepted). *)
Theorem batch_test_apis_missing_url m w pre key raw post :
  apis m = (pre ++ (key, raw) :: post)%list →
  Forall (λ kv, is_Some (api_url (snd kv))) pre →
  urls_parse (heap m) pre →
  (api_url raw = None →
   batch_test_apis m w = (Raise (KeyError "url"), w)) ∧
  (∀ url us1 u us2 e,
     api_url raw = Some url →
     match url with OneStr s => [s] | Many l => deref_list (heap m) l end
     = (us1 ++ u :: us2)%list →
     Forall (λ u, is_raise (urlparse u) = false) us1 →
     urlparse u = Raise e →
     batch_test_apis m w = (Raise e, w)).
Proof.
  intros Hm Hpre Hparse.
  destruct (group_by_site_total (heap m) pre [] Hpre Hparse) as [q1 Hq1].
  unfold batch_test_apis. rewrite Hm, group_by_site_app, Hq1. simpl. split.
  - by intros ->.
  - intros url us1 u us2 e -> -> Hus Hu.
    by rewrite (add_entries_bad_url _ _ _ _ _ _ _ Hus Hu).
Qed.

Lemma dict_keys_foldl_set {V} (v : V) keys (d0 : list (string * V)) :
  NoDup (dict_keys d0 ++ keys) →
  dict_keys (foldl (λ d k, dict_set k v d) d0 keys) = (dict_keys d0 ++ keys)%list.
Proof.
  revert d0. induction keys as [|k keys IH]; intros d0 Hnd; simpl.
  - by rewrite app_nil_r.
  - assert (k ∉ dict_keys d0) as Hk.
    { apply NoDup_app in Hnd as (_ & Hdisj & _). intros Hin.
      apply (Hdisj k Hin). left. }
    assert (dict_keys (dict_set k v d0) = (dict_keys d0 ++ [k])%list) as Hset.
    { rewrite dict_keys_set. by rewrite bool_decide_eq_false_2. }
    rewrite IH; rewrite Hset, <- (assoc_L app); done.
Qed.

Lemma dict_keys_fromkeys {V} (v : V) keys :
  NoDup keys → dict_keys (dict_fromkeys keys v) = keys.
Proof. intros Hnd. unfold dict_fromkeys. by rewrite dict_keys_foldl_set. Qed.

Lemma dict_keys_foldl_mark (flags : Flags) (ps : list Probe) :
  Forall (λ p, entry_api_name (fst p) ∈ dict_keys flags) ps →
  dict_keys (foldl mark flags ps) = dict_keys flags.
Proof.
  revert flags. induction ps as [|p ps IH]; intros flags Hps; simpl; [done|].
  apply Forall_cons in Hps as [Hp Hps].
  assert (dict_keys (mark flags p) = dict_keys flags) as Hk.
  { unfold mark. destruct (snd p); [|done].
    rewrite dict_keys_set. by rewrite bool_decide_eq_true_2. }
  rewrite IH; rewrite Hk; done.
Qed.

Lemma flag_names_partition (flags : Flags) :
  (map fst (filter (λ kv, snd kv = true) flags)
   ++ map fst (filter (λ kv, snd kv = false) flags))%list ≡ₚ dict_keys flags.
Proof.
  induction flags as [|[k []] flags IH]; [done| |].
  - rewrite filter_cons_True, filter_cons_False by done. simpl.
    by rewrite IH.
  - rewrite filter_cons_False, filter_cons_True by done. simpl.
    rewrite <- Permutation_middle. by rewrite IH.
Qed.

(** X15.  When every definition has a [url] field and every stored URL
    is accepted by [urlparse], the two lists that [batch_test_apis]
    returns split the registered names: together they
    are the names, each once, and no name is in both. *)
Theorem batch_test_apis_partition m w :
  NoDup (dict_keys (apis m)) →
  Forall (λ kv, is_Some (api_url (snd kv))) (apis m) →
  urls_parse (heap m) (apis m) →
  ∃ abled disabled w',
    batch_test_apis m w = (Return (abled, disabled), w') ∧
    (abled ++ disabled)%list ≡ₚ dict_keys (apis m) ∧
    (∀ nm, nm ∈ abled → nm ∉ disabled).
Proof.
  intros Hnd Hurl Hparse.
  destruct (group_by_site_total (heap m) (apis m) [] Hurl Hparse) as [q Hgroup].
  set (flags0 := dict_fromkeys (dict_keys (apis m)) false).
  set (res := probe_rounds q flags0 w).
  destruct (probe_rounds_spec (longest q) q flags0 w eq_refl)
    as (_ & _ & Hflags & Hperm).
  fold res in Hflags, Hperm.
  assert (dict_keys (fst (fst res)) = dict_keys (apis m)) as Hkeys.
  { rewrite Hflags, dict_keys_foldl_mark.
    - unfold flags0. by rewrite dict_keys_fromkeys.
    - unfold flags0. rewrite dict_keys_fromkeys by done.
      apply Forall_forall. intros p Hp.
      apply (probe_entries_names (heap m)).
      rewrite <- (app_nil_l (probe_entries _ _)).
      rewrite <- (group_by_site_perm _ _ _ _ Hgroup), <- Hperm.
      apply list_elem_of_fmap. by exists p. }
  exists (map fst (filter (λ kv, snd kv = true) (fst (fst res)))),
         (map fst (filter (λ kv, snd kv = false) (fst (fst res)))), (snd res).
  split_and!.
  - unfold batch_test_apis. rewrite Hgroup. fold flags0. fold res.
    by destruct res as [[flags rs] w'].
  - by rewrite flag_names_partition, Hkeys.
  - intros nm Ha Hd.
    assert (NoDup (dict_keys (fst (fst res)))) as Hnd' by (by rewrite Hkeys).
    apply (elem_of_flag_names true _ _ Hnd') in Ha.
    apply (elem_of_flag_names false _ _ Hnd') in Hd. congruence.
Qed.

Lemma dd_append_by_origin site e (q : Queues) :
  extract_base_url (entry_url e) = Return site →
  by_origin q → by_origin (dd_append site e q).
Proof.
  intros He [Hnd Hall]. unfold dd_append. split.
  - by apply dict_set_NoDup.
  - apply Forall_forall. intros [site' es] Hin.
    apply dict_set_elem in Hin as [[-> ->]|Hin].
    + simpl. apply Forall_app. split; [|by repeat constructor].
      destruct (dict_get _ q) as [es|] eqn:E; [|constructor].
      apply dict_get_Some_elem in E.
      exact (proj1 (Forall_forall _ _) Hall _ E).
    + exact (proj1 (Forall_forall _ _) Hall _ Hin).
Qed.

Lemma add_entries_by_origin nm us ps (q q' : Queues) :
  by_origin q → add_entries nm us ps q = Return q' → by_origin q'.
Proof.
  revert q. induction us as [|u us IH]; intros q Hq; simpl.
  - by intros [= <-].
  - destruct (extract_base_url u) as [site|e] eqn:E; [|done].
    apply IH. by apply dd_append_by_origin.
Qed.

Lemma group_by_site_by_origin h d (q q' : Queues) :
  by_origin q → group_by_site h d q = Return q' → by_origin q'.
Proof.
  revert q. induction d as [|[nm raw] d IH]; intros q Hq; simpl.
  - by intros [= <-].
  - destruct (api_url raw); [|done].
    destruct (add_entries nm _ _ q) as [q1|e] eqn:Hadd; [|done].
    apply IH. by eapply add_entries_by_origin.
Qed.

Lemma round_origins_keys (q : Queues) i site :
  Forall (λ kv, Forall (λ e, extract_base_url (entry_url e) = Return (fst kv))
                       (snd kv)) q →
  Return site ∈ map (λ e, extract_base_url (entry_url e))
                    (omap (λ kv : string * list Entry, snd kv !! i) q) →
  site ∈ dict_keys q.
Proof.
  induction 1 as [|[site' es] q Hes _ IH]; intros Hin.
  - by apply elem_of_nil in Hin.
  - rewrite omap_lookup_cons in Hin. simpl in Hes.
    destruct (es !! i) as [e|] eqn:E; [|right; by apply IH].
    simpl in Hin. apply elem_of_cons in Hin as [Heq|Hin]; [|right; by apply IH].
    rewrite (proj1 (Forall_forall _ _) Hes e) in Heq
      by (by eapply list_elem_of_lookup_2).
    injection Heq as ->. left.
Qed.

Lemma round_origins_NoDup (q : Queues) i :
  by_origin q →
  NoDup (map (λ e, extract_base_url (entry_url e))
             (omap (λ kv : string * list Entry, snd kv !! i) q)).
Proof.
  intros [Hnd Hall].
  induction Hall as [|[site es] q Hes Hall IH]; [constructor|].
  simpl in Hnd. apply NoDup_cons in Hnd as [Hsite Hnd].
  rewrite omap_lookup_cons. destruct (es !! i) as [e|] eqn:E; [|by apply IH].
  simpl. apply NoDup_cons. split; [|by apply IH].
  simpl in Hes.
  rewrite (proj1 (Forall_forall _ _) Hes e) by (by eapply list_elem_of_lookup_2).
  intros Hin. apply Hsite. by eapply round_origins_keys.
Qed.

(** X16.  In every round of [batch_test_apis] the probed URLs belong to
    pairwise different origins: no site receives two probes in the same
    round. *)
Theorem batch_round_one_per_origin m w q :
  group_by_site (heap m) (apis m) [] = Return q →
  Forall (λ round : list Probe,
            NoDup (map (λ p, extract_base_url (entry_url (fst p))) round))
         (snd (fst (probe_rounds q (dict_fromkeys (dict_keys (apis m)) false) w))).
Proof.
  intros Hgroup.
  assert (by_origin q) as Hq.
  { eapply group_by_site_by_origin; [|exact Hgroup]. split; constructor. }
  destruct (probe_rounds_spec (longest q) q
              (dict_fromkeys (dict_keys (apis m)) false) w eq_refl)
    as (Hlen & Hith & _).
  apply Forall_lookup. intros i round Hi.
  assert (i < longest q)%nat as Hlt.
  { rewrite <- Hlen. by eapply lookup_lt_Some. }
  specialize (Hith i Hlt). rewrite Hi in Hith. simpl in Hith.
  injection Hith as Hith.
  pose proof (round_origins_NoDup q i Hq) as Hnd.
  rewrite <- Hith in Hnd. by rewrite <- list_fmap_compose in Hnd.
Qed.

End ProberMore.

Lemma batch_test_apis_missing_url_witness :
  @batch_test_apis json_net demo_urllib no_url_field_manager 0%nat
  = (Raise (KeyError "url"), 0%nat) ∧
  @batch_test_apis json_net demo_urllib bad_url_manager 0%nat
  = (Raise (ValueError "Invalid IPv6 URL"), 0%nat).
Proof.
  split.
  - refine (proj1 (@batch_test_apis_missing_url json_net demo_urllib
                     no_url_field_manager 0%nat
                     [("cat", mkApi (Some (Many ["cat"]))
                                    (Some (OneStr "https://a/c"))
                                    None None None None None)]
                     "dog"
                     (mkApi (Some (Many ["dog"])) None None None None None None)
                     [] eq_refl _ _) eq_refl).
    + repeat constructor; by eexists.
    + by apply (bool_decide_unpack _).
  - refine (proj2 (@batch_test_apis_missing_url json_net demo_urllib
                     bad_url_manager 0%nat
                     [("cat", mkApi (Some (Many ["cat"]))
                                    (Some (OneStr "https://a/c"))
                                    None None None None None)]
                     "dog"
                     (mkApi (Some (Many ["dog"])) (Some (OneStr "http://[bad"))
                            None None None None None)
                     [] eq_refl _ _)
                  (OneStr "http://[bad") [] "http://[bad" []
                  (ValueError "Invalid IPv6 URL") eq_refl eq_refl _ eq_refl).
    + repeat constructor; by eexists.
    + by apply (bool_decide_unpack _).
    + constructor.
Defined.

Lemma batch_test_apis_partition_witness :
  ∃ abled disabled w',
    @batch_test_apis only_a2_net demo_urllib probe_manager 0%nat
    = (Return (abled, disabled), w') ∧
    (abled ++ disabled)%list ≡ₚ ["a"; "b"].
Proof.
  destruct (@batch_test_apis_partition only_a2_net demo_urllib probe_manager 0%nat)
    as (abled & disabled & w' & Hrun & Hperm & _).
  - by apply (bool_decide_unpack _).
  - repeat constructor; by eexists.
  - by apply (bool_decide_unpack _).
  - by exists abled, disabled, w'.
Defined.

Lemma batch_round_one_per_origin_witness :
  Forall (λ round : list Probe,
            NoDup (map (λ p, @extract_base_url demo_urllib (entry_url (fst p)))
                       round))
         (snd (fst (@probe_rounds only_a2_net probe_queues
                      (dict_fromkeys ["a"; "b"] false) 0%nat))).
Proof.
  exact (@batch_round_one_per_origin only_a2_net demo_urllib probe_manager
           0%nat probe_queues eq_refl).
Defined.

Section ProberCount.
Context (script : nat → string → option Params → result Response).
Context `{urllib : UrlLib}.

Lemma request_single_count u params tm (n : nat) :
  snd (@request (scripted_net script) [u] params tm n) = S n.
Proof.
  unfold request. simpl. by destruct (attempt tm (script n u params)).
Qed.

Lemma gather_count batch (n : nat) :
  snd (@gather (scripted_net script) batch n) = (n + length batch)%nat.
Proof.
  revert n. induction batch as [|e batch IH]; intros n; [simpl; lia|].
  cbn [gather length].
  pose proof (request_single_count (entry_url e) (Some (entry_params e)) true n)
    as Hreq.
  destruct (@request (scripted_net script) [entry_url e]
              (Some (entry_params e)) true n) as [r n1].
  simpl in Hreq. subst n1. specialize (IH (S n)).
  destruct (@gather (scripted_net script) batch (S n)) as [ps n'].
  simpl in *. lia.
Qed.

Lemma probe_rounds_count k :
  ∀ (q : Queues) (flags : Flags) (n : nat), longest q = k →
    snd (@probe_rounds (scripted_net script) q flags n)
    = (n + length (concat (snd (fst (@probe_rounds (scripted_net script)
                                       q flags n)))))%nat.
Proof.
  induction k as [|k IH]; intros q flags n Hk; rewrite probe_rounds_step.
  - destruct (any_pending q) eqn:Hany.
    { apply longest_pending in Hany. lia. }
    simpl. lia.
  - destruct (any_pending q) eqn:Hany.
    2:{ apply longest_no_pending in Hany. lia. }
    destruct (round_batch q) as [|e l] eqn:Hbatch.
    { by apply round_batch_pending in Hany. }
    cbv zeta. cbn [fst snd].
    assert (longest (round_rest q) = k) as Hrest.
    { rewrite longest_round_rest. lia. }
    rewrite (IH _ _ _ Hrest), gather_count.
    cbn [concat]. rewrite length_app.
    assert (length (fst (@gather (scripted_net script) (e :: l) n))
            = length (e :: l)) as ->.
    { rewrite <- (@gather_entries (scripted_net script) (e :: l) n) at 2.
      by rewrite length_map. }
    lia.
Qed.

(** X17.  On a network that numbers the GET requests, a run of
    [batch_test_apis] over definitions that all have a [url] field and
    only URLs that [urlparse] accepts sends exactly one request per
    stored URL, whatever the answers are. *)
Theorem batch_test_apis_count m (n : nat) :
  Forall (λ kv, is_Some (api_url (snd kv))) (apis m) →
  urls_parse (heap m) (apis m) →
  snd (@batch_test_apis (scripted_net script) urllib m n)
  = (n + length (probe_entries (heap m) (apis m)))%nat.
Proof.
  intros Hurl Hparse.
  destruct (group_by_site_total (heap m) (apis m) [] Hurl Hparse) as [q Hgroup].
  unfold batch_test_apis. rewrite Hgroup.
  set (flags0 := dict_fromkeys (dict_keys (apis m)) false).
  pose proof (probe_rounds_count (longest q) q flags0 n eq_refl) as Hcount.
  destruct (@probe_rounds_spec (scripted_net script) (longest q) q flags0 n
              eq_refl) as (_ & _ & _ & Hperm).
  apply Permutation_length in Hperm. rewrite length_map in Hperm.
  pose proof (Permutation_length (group_by_site_perm _ _ _ _ Hgroup)) as Hlen.
  simpl in Hlen.
  destruct (@probe_rounds (scripted_net script) q flags0 n) as [[flags rs] n'].
  simpl in *. lia.
Qed.

End ProberCount.

Lemma batch_test_apis_count_witness :
  snd (@batch_test_apis
         (scripted_net (λ _ _ _, Raise TimeoutError)) demo_urllib
         probe_manager 10%nat) = 14%nat.
Proof.
  apply (batch_test_apis_count (λ _ _ _, Raise TimeoutError) probe_manager 10%nat).
  - repeat constructor; by eexists.
  - by apply (bool_decide_unpack _).
Defined.

(** * Further properties of the plugin *)

Lemma dict_set_fresh {V} k (v : V) (d : list (string * V)) :
  k ∉ dict_keys d → dict_set k v d = (d ++ [(k, v)])%list.
Proof.
  induction d as [|[k' v'] d IH]; simpl; intros Hk; [done|].
  apply not_elem_of_cons in Hk as [Hne Hk].
  destruct (String.eqb_spec k' k) as [->|_]; [done|]. by rewrite IH.
Qed.

Lemma foldl_dict_set_fresh {A V} (key : A → string) (val : A → V)
    (l : list A) (acc : list (string * V)) :
  NoDup (dict_keys acc ++ map key l) →
  foldl (λ acc x, dict_set (key x) (val x) acc) acc l
  = (acc ++ map (λ x, (key x, val x)) l)%list.
Proof.
  revert acc. induction l as [|x l IH]; intros acc Hnd; simpl.
  - by rewrite app_nil_r.
  - assert (key x ∉ dict_keys acc) as Hx.
    { apply NoDup_app in Hnd as (_ & Hdisj & _). intros Hin.
      apply (Hdisj _ Hin). left. }
    rewrite dict_set_fresh by done. rewrite IH.
    + by rewrite <- (assoc_L app).
    + unfold dict_keys. rewrite map_app. simpl.
      by rewrite <- (assoc_L app).
Qed.

(** X18.  [update_params] keeps the parameter names and their order; the
    [i]-th parameter takes the [i]-th positional argument when there is
    one and keeps its default otherwise.  Surplus arguments are
    ignored. *)
Theorem update_params_positional args (params : Params) :
  NoDup (dict_keys params) →
  dict_keys (update_params args params) = dict_keys params ∧
  ∀ i key v, params !! i = Some (key, v) →
    update_params args params !! i
    = Some (key, match args !! i with Some a => PStr a | None => v end).
Proof.
  intros Hnd. unfold update_params.
  assert (map snd (zip (seq 0 (length params)) (dict_keys params))
          = dict_keys params) as Hsnd.
  { change (map snd ?l) with (snd <$> l). apply snd_zip.
    unfold dict_keys. rewrite length_seq, length_map. lia. }
  rewrite (foldl_dict_set_fresh snd
             (λ ik, match args !! fst ik with
                    | Some a => PStr a
                    | None => default PNone (dict_get (snd ik) params)
                    end)) by (simpl; by rewrite Hsnd).
  simpl. split.
  - unfold dict_keys at 1. rewrite map_map. simpl. exact Hsnd.
  - intros i key v Hi.
    change (map ?f ?l) with (f <$> l). rewrite list_lookup_fmap.
    assert (zip (seq 0 (length params)) (dict_keys params) !! i = Some (i, key))
      as ->.
    { apply lookup_zip_with_Some. exists i, key. split_and!; [done| |].
      - apply lookup_seq. split; [done|]. by eapply lookup_lt_Some.
      - unfold dict_keys. change (map fst params) with (fst <$> params).
        by rewrite list_lookup_fmap, Hi. }
    simpl. f_equal. f_equal. destruct (args !! i); [done|].
    rewrite (dict_get_NoDup key v params Hnd); [done|].
    by eapply list_elem_of_lookup_2.
Qed.

Lemma update_params_positional_witness :
  update_params ["tom"] [("name", PStr ""); ("size", PInt 3)] !! 1%nat
  = Some ("size", PInt 3).
Proof.
  exact (proj2 (update_params_positional ["tom"]
                  [("name", PStr ""); ("size", PInt 3)]
                  ltac:(by apply (bool_decide_unpack _)))
               1%nat "size" (PInt 3) eq_refl).
Defined.

Section PluginMore.
Context `{net : Net} `{utils : Utils} `{cache : LocalCache}.

(** X19.  [call_api] always answers with one of the tags "api", "local"
    and "error", and an "error" answer carries neither text nor path. *)
Theorem call_api_tags h api_data params w ls :
  let out := fst (fst (call_api h api_data params w ls)) in
  snd out = "api" ∨ snd out = "local" ∨ out = (None, None, "error").
Proof.
  assert (∀ ls0, snd (fst (local_fallback api_data ls0)) = "local" ∨
                 fst (local_fallback api_data ls0) = (None, None, "error"))
    as Hfb.
  { intros ls0. unfold local_fallback.
    destruct (local_get_data _ _ ls0) as [[[t p]|e] ls1]; [by left|by right]. }
  unfold call_api.
  destruct (get_data _ _ _ _ w) as [[[t b]|e] w1].
  - destruct (truthy_text t || truthy_bytes b).
    + destruct (save_data _ _ t b ls) as [[[st sp]|e] ls1]; [by left|].
      specialize (Hfb ls1). destruct (local_fallback api_data ls1) as [o ls2].
      simpl in *. tauto.
    + specialize (Hfb ls). destruct (local_fallback api_data ls) as [o ls2].
      simpl in *. tauto.
  - specialize (Hfb ls). destruct (local_fallback api_data ls) as [o ls2].
    simpl in *. tauto.
Qed.

(** X20.  [call_api_by_name] on a trigger that matches nothing answers
    "error" without touching registry, network or cache; on a trigger
    that matches it is [call_api] applied to the normalised definition
    of a match of maximal priority, read from the store left by the
    normalisation. *)
Theorem call_api_by_name_spec draw nm params m w ls :
  (collect_matches nm (apis m) = [] →
   call_api_by_name draw nm params m w ls = ((None, None, "error"), m, w, ls)) ∧
  (collect_matches nm (apis m) ≠ [] →
   ∃ sel, sel ∈ collect_matches nm (apis m) ∧
     (∀ x, x ∈ collect_matches nm (apis m) →
           match_priority x ≤ match_priority sel) ∧
     let d := fst (normalize_api_data (match_key sel) m) in
     let m' := snd (normalize_api_data (match_key sel) m) in
     call_api_by_name draw nm params m w ls
     = (fst (fst (call_api (heap m') d params w ls)), m',
        snd (fst (call_api (heap m') d params w ls)),
        snd (call_api (heap m') d params w ls))).
Proof.
  split.
  - intros Hnil. unfold call_api_by_name, match_api_by_name. by rewrite Hnil.
  - intros Hne.
    destruct (match_api_by_name_sel draw nm m Hne)
      as (top & rest & sel & Hs & Hsel & Hprio & Heq).
    destruct (sort_desc_top _ _ _ Hs) as [_ Hmax].
    exists sel. split_and!.
    + by rewrite <- (sort_desc_perm (collect_matches nm (apis m))).
    + intros x Hx. rewrite Hprio. by apply Hmax.
    + unfold call_api_by_name. rewrite Heq.
      by destruct (call_api _ _ params w ls) as [[out w'] ls'].
Qed.

End PluginMore.

Lemma call_api_by_name_spec_witness :
  @call_api_by_name json_net demo_utils demo_cache 0%nat "bird" None
    two_cats 0%nat []
  = ((None, None, "error"), two_cats, 0%nat, []).
Proof.
  exact (proj1 (@call_api_by_name_spec json_net demo_utils demo_cache 0%nat
                  "bird" None two_cats 0%nat []) eq_refl).
Defined.

(** * Loading and listing the registry *)

Section LoadFacts.
Implicit Types (h : Heap) (j : JsonApi) (d : list (string * JsonApi)).

Lemma load_api_spec j h :
  ∃ ext, snd (load_api j h) = (h ++ ext)%list ∧
         closed_api (h ++ ext) (fst (load_api j h)) ∧
         dump_api (h ++ ext) (fst (load_api j h)) = j.
Proof.
  destruct j as [kw url ty ps tg fz pr]. unfold load_api, closed_api, dump_api.
  cbn [api_keyword api_url api_type api_params api_target api_fuzzy api_priority].
  destruct url as [[s|us]|], ps as [kv|]; cbn [alloc fst snd api_keyword
    api_url api_type api_params api_target api_fuzzy api_priority fmap
    option_fmap option_map].
  - exists [HDict kv]. rewrite length_app. simpl. split_and!; [done|done|lia|].
    unfold deref_dict. by rewrite lookup_app_r, Nat.sub_diag by lia.
  - exists []. rewrite app_nil_r. done.
  - exists [HList us; HDict kv]. rewrite (assoc_L app _ [HList us] [HDict kv]).
    rewrite !length_app. simpl. split_and!; [done|lia|lia|].
    unfold deref_list, deref_dict.
    rewrite (lookup_app_l (h ++ [HList us])) by (rewrite length_app; simpl; lia).
    rewrite (lookup_app_r h), Nat.sub_diag by lia.
    rewrite (lookup_app_r (h ++ [HList us])) by (rewrite length_app; simpl; lia).
    rewrite length_app. simpl.
    by replace (length h + 1 - (length h + 1))%nat with 0%nat by lia.
  - exists [HList us]. rewrite length_app. simpl. split_and!; [done|lia|done|].
    unfold deref_list. by rewrite lookup_app_r, Nat.sub_diag by lia.
  - exists [HDict kv]. rewrite length_app. simpl. split_and!; [done|done|lia|].
    unfold deref_dict. by rewrite lookup_app_r, Nat.sub_diag by lia.
  - exists []. rewrite app_nil_r. done.
Qed.

Lemma json_load_spec d :
  ∀ (acc : list (string * RawApi)) h,
    NoDup (dict_keys acc ++ dict_keys d) →
    Forall (λ kv, closed_api h (snd kv)) acc →
    ∃ ext a,
      json_load d acc h = ((acc ++ a)%list, (h ++ ext)%list) ∧
      dict_keys a = dict_keys d ∧
      Forall (λ kv, closed_api (h ++ ext) (snd kv)) (acc ++ a) ∧
      json_dump (h ++ ext) a = d.
Proof.
  induction d as [|[k j] d IH]; intros acc h Hnd Hc; simpl.
  - exists [], []. rewrite !app_nil_r. done.
  - destruct (load_api_spec j h) as (e1 & Hh1 & Hc1 & Hd1).
    destruct (load_api j h) as [raw h1]. simpl in Hh1, Hc1, Hd1. subst h1.
    assert (k ∉ dict_keys acc) as Hk.
    { apply NoDup_app in Hnd as (_ & Hdisj & _). intros Hin.
      apply (Hdisj _ Hin). left. }
    rewrite dict_set_fresh by done.
    destruct (IH (acc ++ [(k, raw)])%list (h ++ e1)%list)
      as (e2 & a & -> & Hkeys & Hca & Hda).
    { unfold dict_keys. rewrite map_app. simpl. by rewrite <- (assoc_L app). }
    { apply Forall_app. split; [by apply closed_grow|].
      constructor; [exact Hc1|constructor]. }
    exists (e1 ++ e2)%list, ((k, raw) :: a).
    rewrite !(assoc_L app). rewrite <- (assoc_L app acc) in *. simpl in *.
    split_and!; [done|by rewrite Hkeys|done|].
    rewrite Hda. f_equal. f_equal.
    rewrite <- Hd1. apply dump_api_agree; [done|].
    intros l Hl. by apply lookup_app_l.
Qed.

(** X21.  Loading a catalogue whose keys are distinct and dumping the
    result gives the catalogue back: names, order and every field.  The
    load only allocates: the store it started from is a prefix of the
    store it leaves, and every address it stored is allocated. *)
Theorem json_load_dump d h :
  NoDup (dict_keys d) →
  let a := fst (json_load d [] h) in
  let h' := snd (json_load d [] h) in
  json_dump h' a = d ∧
  dict_keys a = dict_keys d ∧
  Forall (λ kv, closed_api h' (snd kv)) a ∧
  ∃ ext, h' = (h ++ ext)%list.
Proof.
  intros Hnd.
  destruct (json_load_spec d [] h) as (ext & a & -> & Hk & Hc & Hd);
    [done|constructor|].
  simpl. split_and!; [done|done|done|by exists ext].
Qed.

Lemma json_load_dump_witness :
  json_dump (snd (json_load cat_file [] [])) (fst (json_load cat_file [] []))
  = cat_file.
Proof.
  exact (proj1 (json_load_dump cat_file []
                  ltac:(by apply (bool_decide_unpack _)))).
Defined.

(** X22.  [load_data] uses the store when it can be parsed and leaves it
    alone.  When the store is absent or is not JSON it takes the default
    catalogue and writes it to the store; when that is absent or not JSON
    either, the registry is empty and nothing is written.  A file that
    fails to open or decode with another exception (one that is not
    UTF-8, say) is not recovered from: that exception leaves
    [load_data], for the store always and for the default catalogue
    when it is needed.  Whenever a catalogue was read, memory and store
    agree afterwards and the registry invariant holds. *)
Theorem load_data_spec store seed h :
  match store, seed with
  | Unreadable e, _ => load_data store seed h = Raise e
  | Holds d, _ =>
      NoDup (dict_keys d) →
      ∃ a h', load_data store seed h = Return (a, h', store) ∧
              json_dump h' a = d ∧ registry_inv (mkManager a h' (Some d))
  | _, Holds d =>
      NoDup (dict_keys d) →
      ∃ a h', load_data store seed h = Return (a, h', Holds d) ∧
              json_dump h' a = d ∧ registry_inv (mkManager a h' (Some d))
  | _, Unreadable e => load_data store seed h = Raise e
  | _, _ => load_data store seed h = Return ([], h, store)
  end.
Proof.
  assert (∀ d, NoDup (dict_keys d) →
               json_dump (snd (json_load d [] h)) (fst (json_load d [] h)) = d ∧
               registry_inv (mkManager (fst (json_load d [] h))
                                       (snd (json_load d [] h)) (Some d))) as Hld.
  { intros d Hnd. destruct (json_load_dump d h Hnd) as (Hd & Hk & Hc & _).
    split; [done|]. unfold registry_inv, closed, in_sync. simpl.
    split_and!; [by rewrite Hk|done|by rewrite Hd]. }
  destruct store as [|e| |d], seed as [|e'| |d']; simpl; try done;
    intros Hnd;
    match goal with
    | |- context [json_load ?x [] h] =>
        destruct (Hld x Hnd) as [Hd Hinv];
        destruct (json_load x [] h) as [a h1]; simpl in *;
        exists a, h1; by rewrite ?Hd
    end.
Qed.

Lemma load_data_spec_witness :
  ∃ a h', load_data Corrupt (Holds cat_file) [] = Return (a, h', Holds cat_file).
Proof.
  destruct (load_data_spec Corrupt (Holds cat_file) []
              ltac:(by apply (bool_decide_unpack _))) as (a & h' & Hl & _).
  by exists a, h'.
Defined.

End LoadFacts.

Section ListFacts.

Lemma classify_from (acc : list (string * list string))
    (d : list (string * RawApi)) t :
  dict_get "unknown" acc = None →
  dict_get t
    (foldl (λ api_types kv,
              let api_type := default "unknown" (api_type (snd kv)) in
              match dict_get api_type api_types with
              | Some names => dict_set api_type (names ++ [fst kv])%list api_types
              | None => api_types
              end) acc d)
  = (λ names, (names ++ map fst (filter (λ kv, api_type (snd kv) = Some t) d))%list)
      <$> dict_get t acc.
Proof.
  revert acc. induction d as [|[k raw] d IH]; intros acc Hunk; cbn [foldl].
  - simpl. destruct (dict_get t acc); simpl; [by rewrite app_nil_r|done].
  - cbn zeta. cbn [fst snd].
    set (ty := default "unknown" (api_type raw)).
    rewrite filter_cons. cbn [snd].
    destruct (dict_get ty acc) as [names|] eqn:Hty.
    + assert (ty ≠ "unknown") as Hne by (intros E; congruence).
      assert (api_type raw = Some ty) as Hraw.
      { unfold ty in *. destruct (api_type raw); [done|]. done. }
      rewrite IH by (by rewrite dict_get_set_ne).
      destruct (decide (t = ty)) as [->|Hneq].
      * rewrite dict_get_set_eq, Hty. simpl.
        rewrite decide_True by done. simpl. by rewrite <- (assoc_L app).
      * rewrite dict_get_set_ne by done.
        rewrite decide_False by congruence. done.
    + rewrite IH by done. case_decide as Ht; [|done].
      assert (ty = t) as <- by (unfold ty; by rewrite Ht).
      by rewrite Hty.
Qed.

Lemma classify_spec (d : list (string * RawApi)) t :
  dict_get t (classify d)
  = if bool_decide (t ∈ ALLOWED_TYPES)
    then Some (names_of_type t d)
    else None.
Proof.
  unfold classify, names_of_type. rewrite classify_from by done.
  case_bool_decide as Ht.
  - unfold ALLOWED_TYPES in Ht.
    repeat (apply elem_of_cons in Ht as [->|Ht]; [done|]).
    by apply elem_of_nil in Ht.
  - destruct (dict_get t _) as [names|] eqn:E; [|done].
    apply dict_get_Some_elem in E. destruct Ht.
    unfold ALLOWED_TYPES. simpl in E.
    repeat (apply elem_of_cons in E as [[= -> _]|E]; [set_solver|]).
    by apply elem_of_nil in E.
Qed.

Lemma classify_keys (d : list (string * RawApi)) :
  dict_keys (classify d) = ALLOWED_TYPES.
Proof.
  unfold classify.
  change ALLOWED_TYPES
    with (dict_keys (map (λ t, (t, @nil string)) ALLOWED_TYPES)) at 2.
  generalize (map (λ t, (t, @nil string)) ALLOWED_TYPES).
  induction d as [|[k raw] d IH]; intros acc; cbn [foldl]; [done|].
  rewrite IH. cbn zeta.
  destruct (dict_get _ acc) as [names|] eqn:E; [|done].
  rewrite dict_keys_set. rewrite bool_decide_eq_true_2; [done|].
  apply dict_get_Some_elem in E. unfold dict_keys.
  apply list_elem_of_fmap. by eexists (_, _).
Qed.

Lemma classify_buckets (d : list (string * RawApi)) :
  classify d = map (λ t, (t, names_of_type t d)) ALLOWED_TYPES.
Proof.
  pose proof (classify_keys d) as Hk.
  pose proof (λ t, classify_spec d t) as Hg.
  destruct (classify d) as [|[k1 v1] [|[k2 v2] [|[k3 v3] [|[k4 v4] [|??]]]]];
    try discriminate.
  injection Hk as -> -> -> ->.
  pose proof (Hg "text") as H1. pose proof (Hg "image") as H2.
  pose proof (Hg "video") as H3. pose proof (Hg "audio") as H4.
  vm_compute in H1, H2, H3, H4.
  injection H1 as ->. injection H2 as ->. injection H3 as ->. injection H4 as ->.
  reflexivity.
Qed.

Lemma append_assoc_s (a b c : string) : (a ++ b) ++ c = a ++ b ++ c.
Proof.
  induction a as [|x a IH]; [done|]. by rewrite !append_cons, IH.
Qed.

Lemma append_empty_r (a : string) : a ++ "" = a.
Proof. induction a as [|x a IH]; [done|]. by rewrite append_cons, IH. Qed.

Lemma foldl_names (init : string) names :
  foldl (λ r key, r ++ key ++ "、") init names = init ++ joined names.
Proof.
  revert init. induction names as [|k names IH]; intros init; simpl.
  - by rewrite append_empty_r.
  - by rewrite IH, !append_assoc_s.
Qed.

Lemma foldl_sections (init : string) (buckets : list (string * list string)) :
  foldl (λ result bucket,
           (match snd bucket with
            | [] => result
            | names =>
                foldl (λ r key, r ++ key ++ "、")
                      (result ++ "【" ++ fst bucket ++ "】"
                              ++ pretty (length names) ++ "个：" ++ "
")
                      names
            end) ++ "

")
        init buckets
  = init ++ foldr (λ b rest, type_section (fst b) (snd b) ++ rest) "" buckets.
Proof.
  revert init. induction buckets as [|[t names] buckets IH]; intros init.
  - simpl. by rewrite append_empty_r.
  - cbn [foldl foldr fst snd]. rewrite IH. rewrite <- append_assoc_s. f_equal.
    unfold type_section. destruct names as [|k names]; [done|].
    rewrite foldl_names.
    change (joined (k :: names)) with (k ++ "、" ++ joined names).
    by rewrite !append_assoc_s.
Qed.

(** X23.  The text that [list_api] returns: the header with the number of
    registered definitions, then one section for each of text, image,
    video and audio, in that order, and the whole stripped of surrounding
    white space.  A section names, in registry order, exactly the
    definitions whose stored type is that one, preceded by their count,
    and is empty when there is none.  A definition whose type is missing
    or not allowed is counted in the header but named in no section. *)
Theorem list_api_sections m :
  list_api m
  = strip ("----共收录了" ++ pretty (length (apis m)) ++ "个API功能----" ++ "

"
           ++ type_section "text" (names_of_type "text" (apis m))
           ++ type_section "image" (names_of_type "image" (apis m))
           ++ type_section "video" (names_of_type "video" (apis m))
           ++ type_section "audio" (names_of_type "audio" (apis m))).
Proof.
  unfold list_api. rewrite classify_buckets, foldl_sections.
  unfold ALLOWED_TYPES. cbn [map foldr fst snd].
  by rewrite append_empty_r, !append_assoc_s.
Qed.

End ListFacts.
